(** * ipywidgets trait types: a shallow embedding of [traits.py]

    The development follows the layout of
    [ipywidgets/widgets/trait_types/traits.py]: the validated scalar
    traits ([Color], the date/time wire codec, [NumberFormat]), the
    coercing reference trait ([InstanceDict]) and the eventful containers
    ([EventfulElements], [EventfulDict], [EventfulList]).

    Python objects are modelled by their contents, exceptions by an
    explicit result type, and in-place mutation by state passing (a heap
    of dict objects where a caller's object is written through a
    reference). *)

From Stdlib Require Import ZArith Lia String Ascii PrimFloat Uint63.
From stdpp Require Import base option list gmap strings sorting.

Set Default Proof Using "Type".

(** ** Exceptions and results *)

(** The exception classes that the modelled code can raise.  A
    [TraitError] is raised by [self.error(obj, value)] of traitlets and
    carries the offending value; a [TraitError] built from a message is
    [TraitErrorMsg]. *)
Inductive exn (X : Type) : Type :=
  | ValueError
  | KeyError
  | IndexError
  | TypeError
  | AttributeError
  | TraitError (value : X)
  | TraitErrorMsg (msg : string).
Arguments ValueError {X}.
Arguments KeyError {X}.
Arguments IndexError {X}.
Arguments TypeError {X}.
Arguments AttributeError {X}.
Arguments TraitError {X} value.
Arguments TraitErrorMsg {X} msg.

(** The container code raises no trait error: its exceptions carry nothing. *)
Abbreviation exn0 := (exn Empty_set).

(** A computation that returns or raises. *)
Inductive result (X A : Type) : Type :=
  | Ok (a : A)
  | Raise (e : exn X).
Arguments Ok {X A} a.
Arguments Raise {X A} e.

(** Results of the container code. *)
Abbreviation result0 := (result Empty_set).

Definition rbind {X A B} (m : result X A) (f : A -> result X B) : result X B :=
  match m with
  | Ok a => f a
  | Raise e => Raise e
  end.

Definition rmap {X A B} (f : A -> B) (m : result X A) : result X B :=
  rbind m (fun a => Ok (f a)).

Declare Scope result_scope.
Delimit Scope result_scope with result.
Notation "x <<- m ;; k" := (rbind m (fun x => k))
  (at level 100, m at next level, right associativity) : result_scope.
Local Open Scope result_scope.

(** Run [f] over a list from left to right, stopping at the first raise. *)
Fixpoint rmapM {X A B} (f : A -> result X B) (l : list A) : result X (list B) :=
  match l with
  | [] => Ok []
  | a :: l' => b <<- f a ;; bs <<- rmapM f l' ;; Ok (b :: bs)
  end.

(** ** Strings and the regular expressions of [re]

    A string is a sequence of characters with code points below 256.  On
    these, [str.lower] moves the capitals A-Z and the Latin-1 capitals
    (code points 192-222 but 215) to their small letters, [\d] is 0-9 and
    case-insensitive matching folds exactly these letters. *)

Module Re.

Definition between (lo hi c : ascii) : bool :=
  (N_of_ascii lo <=? N_of_ascii c)%N && (N_of_ascii c <=? N_of_ascii hi)%N.

Definition is_upper (c : ascii) : bool :=
  between "A" "Z" c
  || (between "192" "222" c && negb (bool_decide (c = "215"%char))).

Definition is_lower (c : ascii) : bool :=
  between "a" "z" c
  || (between "224" "254" c && negb (bool_decide (c = "247"%char))).

Definition char_lower (c : ascii) : ascii :=
  if is_upper c then ascii_of_N (N_of_ascii c + 32) else c.

Definition char_upper (c : ascii) : ascii :=
  if is_lower c then ascii_of_N (N_of_ascii c - 32) else c.

(** [s.lower()] *)
Fixpoint lower (s : string) : string :=
  match s with
  | EmptyString => EmptyString
  | String c s' => String (char_lower c) (lower s')
  end.

(** The members of a bracketed character set; a literal character of a
    pattern is the set of that one character. *)
Inductive class_item : Type :=
  | Range (lo hi : ascii)
  | Lit (c : ascii)
  | Digit.

Definition item_matches (c : ascii) (i : class_item) : bool :=
  match i with
  | Range lo hi => between lo hi c
  | Lit a => bool_decide (a = c)
  | Digit => between "0" "9" c
  end.

(** Membership of a character in a set; under [re.I] the character is
    folded to lower case and, if that is no member, to upper case. *)
Definition in_class (ignorecase : bool) (items : list class_item) (c : ascii)
    : bool :=
  if ignorecase then
    existsb (item_matches (char_lower c)) items
    || existsb (item_matches (char_upper (char_lower c))) items
  else existsb (item_matches c) items.

Inductive regex : Type :=
  | Empty
  | Class (items : list class_item)
  | Dot
  | Cat (r1 r2 : regex)
  | Opt (r : regex)
  | Many1 (items : list class_item)
  | Group (n : nat) (r : regex)
  | Bol
  | Eol.

(** [r{n}] *)
Fixpoint times (n : nat) (r : regex) : regex :=
  match n with
  | O => Empty
  | S O => r
  | S n' => Cat r (times n' r)
  end.

Definition newline : ascii := "010"%char.

(** [$] holds at the end of the string and just before a newline that
    ends the string. *)
Definition at_end (s : string) : bool :=
  match s with
  | EmptyString => true
  | String c EmptyString => bool_decide (c = newline)
  | _ => false
  end.

(** The text between two positions of the subject, given as the rests of
    the subject that start there. *)
Definition consumed (s s' : string) : string :=
  substring 0 (String.length s - String.length s') s.

(** One or more characters of a set, as many as possible first. *)
Fixpoint many1 {R} (p : ascii -> bool) (s : string) (k : string -> option R)
    : option R :=
  match s with
  | EmptyString => None
  | String c s' =>
      if p c then
        match many1 p s' k with
        | Some m => Some m
        | None => k s'
        end
      else None
  end.

(** The backtracking matcher: [exec r] matches [r] at the front of [s]
    and hands the rest of the subject and the groups set so far to the
    continuation; an alternative that makes the continuation fail is
    given up for the next one.  [whole] is the length of the subject. *)
Fixpoint exec (ignorecase : bool) (r : regex) (whole : nat) (s : string)
    (g : gmap nat string)
    (k : string -> gmap nat string -> option (gmap nat string))
    : option (gmap nat string) :=
  match r with
  | Empty => k s g
  | Class items =>
      match s with
      | String c s' => if in_class ignorecase items c then k s' g else None
      | EmptyString => None
      end
  | Dot =>
      match s with
      | String c s' => if bool_decide (c = newline) then None else k s' g
      | EmptyString => None
      end
  | Cat r1 r2 =>
      exec ignorecase r1 whole s g
        (fun s' g' => exec ignorecase r2 whole s' g' k)
  | Opt r1 =>
      match exec ignorecase r1 whole s g k with
      | Some m => Some m
      | None => k s g
      end
  | Many1 items => many1 (in_class ignorecase items) s (fun s' => k s' g)
  | Group n r1 =>
      exec ignorecase r1 whole s g
        (fun s' g' => k s' (<[n := consumed s s']> g'))
  | Bol => if (String.length s =? whole)%nat then k s g else None
  | Eol => if at_end s then k s g else None
  end.

(** [pattern.match(s)]: a match at the start of [s], as the groups that
    took part in it; [None] is no match. *)
Definition match_ (ignorecase : bool) (r : regex) (s : string)
    : option (gmap nat string) :=
  exec ignorecase r (String.length s) s ∅ (fun _ g => Some g).

(** The pattern without its capturing parentheses. *)
Fixpoint erase (r : regex) : regex :=
  match r with
  | Cat r1 r2 => Cat (erase r1) (erase r2)
  | Opt r1 => Opt (erase r1)
  | Group _ r1 => erase r1
  | _ => r
  end.

End Re.

(** ** Color *)

Module Color.

Definition _color_names : list string :=
  ["aliceblue"; "antiquewhite"; "aqua"; "aquamarine"; "azure"; "beige";
   "bisque"; "black"; "blanchedalmond"; "blue"; "blueviolet"; "brown";
   "burlywood"; "cadetblue"; "chartreuse"; "chocolate"; "coral";
   "cornflowerblue"; "cornsilk"; "crimson"; "cyan"; "darkblue"; "darkcyan";
   "darkgoldenrod"; "darkgray"; "darkgreen"; "darkkhaki"; "darkmagenta";
   "darkolivegreen"; "darkorange"; "darkorchid"; "darkred"; "darksalmon";
   "darkseagreen"; "darkslateblue"; "darkslategray"; "darkturquoise";
   "darkviolet"; "deeppink"; "deepskyblue"; "dimgray"; "dodgerblue";
   "firebrick"; "floralwhite"; "forestgreen"; "fuchsia"; "gainsboro";
   "ghostwhite"; "gold"; "goldenrod"; "gray"; "green"; "greenyellow";
   "honeydew"; "hotpink"; "indianred "; "indigo "; "ivory"; "khaki";
   "lavender"; "lavenderblush"; "lawngreen"; "lemonchiffon"; "lightblue";
   "lightcoral"; "lightcyan"; "lightgoldenrodyellow"; "lightgray";
   "lightgreen"; "lightpink"; "lightsalmon"; "lightseagreen";
   "lightskyblue"; "lightslategray"; "lightsteelblue"; "lightyellow";
   "lime"; "limegreen"; "linen"; "magenta"; "maroon"; "mediumaquamarine";
   "mediumblue"; "mediumorchid"; "mediumpurple"; "mediumseagreen";
   "mediumslateblue"; "mediumspringgreen"; "mediumturquoise";
   "mediumvioletred"; "midnightblue"; "mintcream"; "mistyrose"; "moccasin";
   "navajowhite"; "navy"; "oldlace"; "olive"; "olivedrab"; "orange";
   "orangered"; "orchid"; "palegoldenrod"; "palegreen"; "paleturquoise";
   "palevioletred"; "papayawhip"; "peachpuff"; "peru"; "pink"; "plum";
   "powderblue"; "purple"; "rebeccapurple"; "red"; "rosybrown"; "royalblue";
   "saddlebrown"; "salmon"; "sandybrown"; "seagreen"; "seashell"; "sienna";
   "silver"; "skyblue"; "slateblue"; "slategray"; "snow"; "springgreen";
   "steelblue"; "tan"; "teal"; "thistle"; "tomato"; "turquoise"; "violet";
   "wheat"; "white"; "whitesmoke"; "yellow"; "yellowgreen"]%string.

(** [[a-fA-F0-9]] *)
Definition hex_digit : list Re.class_item :=
  [Re.Range "a" "f"; Re.Range "A" "F"; Re.Range "0" "9"].

(** [#[a-fA-F0-9]{3}(?:[a-fA-F0-9]{3})?$] *)
Definition _color_re : Re.regex :=
  Re.Cat (Re.Class [Re.Lit "#"])
    (Re.Cat (Re.times 3 (Re.Class hex_digit))
       (Re.Cat (Re.Opt (Re.times 3 (Re.Class hex_digit))) Re.Eol)).

Definition validate (value : string) : result string string :=
  if bool_decide (Re.lower value ∈ _color_names)
     || bool_decide (is_Some (Re.match_ false _color_re value))
  then Ok value
  else Raise (TraitError value).

(** The pattern as the specification writes it:
    [^#[0-9a-fA-F]{3}([0-9a-fA-F]{3})?$]. *)
Definition spec_hex_digit : list Re.class_item :=
  [Re.Range "0" "9"; Re.Range "a" "f"; Re.Range "A" "F"].

Definition spec_color_pattern : Re.regex :=
  Re.Cat Re.Bol
    (Re.Cat (Re.Class [Re.Lit "#"])
       (Re.Cat (Re.times 3 (Re.Class spec_hex_digit))
          (Re.Cat (Re.Opt (Re.Group 1 (Re.times 3 (Re.Class spec_hex_digit))))
             Re.Eol))).

(** What both patterns accept, spelled out: a [#], three or six
    hexadecimal digits and nothing more but, possibly, one final newline. *)
Definition is_hex (c : ascii) : bool :=
  Re.between "0" "9" c || Re.between "a" "f" c || Re.between "A" "F" c.

Definition hex_shape (s : string) : bool :=
  match s with
  | String c0 (String c1 (String c2 (String c3 rest))) =>
      bool_decide (c0 = "#"%char) && is_hex c1 && is_hex c2 && is_hex c3
      && (match rest with
          | String c4 (String c5 (String c6 rest')) =>
              is_hex c4 && is_hex c5 && is_hex c6 && Re.at_end rest'
          | _ => false
          end
          || Re.at_end rest)
  | _ => false
  end.

End Color.

(** ** The date/time wire codec *)

Module Datetime.

(** The numbers of the wire form: [int] and [float]. *)
Inductive number : Type :=
  | Int (z : Z)
  | Float (f : float).

(** [/] on two ints is floor division in Python 2 and true division, with
    a float result, in Python 3; the module runs on both and imports no
    [division] from [__future__]. *)
Inductive division : Type :=
  | FloorDivision
  | TrueDivision.

(** [float(z)] *)
Definition float_of_Z (z : Z) : float :=
  if (z <? 0)%Z then PrimFloat.opp (PrimFloat.of_uint63 (Uint63.of_Z (- z)))
  else PrimFloat.of_uint63 (Uint63.of_Z z).

(** [a - b], [a + b], [a * b] and [a / b] with an int literal [b]. *)
Definition py_sub (a : number) (b : Z) : number :=
  match a with
  | Int z => Int (z - b)
  | Float f => Float (PrimFloat.sub f (float_of_Z b))
  end.

Definition py_add (a : number) (b : Z) : number :=
  match a with
  | Int z => Int (z + b)
  | Float f => Float (PrimFloat.add f (float_of_Z b))
  end.

Definition py_mul (a : number) (b : Z) : number :=
  match a with
  | Int z => Int (z * b)
  | Float f => Float (PrimFloat.mul f (float_of_Z b))
  end.

Definition py_div (mode : division) (a : number) (b : Z) : number :=
  match a with
  | Int z =>
      match mode with
      | FloorDivision => Int (z / b)
      | TrueDivision => Float (PrimFloat.div (float_of_Z z) (float_of_Z b))
      end
  | Float f => Float (PrimFloat.div f (float_of_Z b))
  end.

(** A [datetime.datetime] object.  [tzinfo] is [None] for a naive value
    and the offset from UTC, in minutes, for an aware one. *)
Record datetime : Type := mk_datetime {
  year : Z;
  month : Z;
  day : Z;
  hour : Z;
  minute : Z;
  second : Z;
  microsecond : Z;
  tzinfo : option Z
}.

Definition is_leap (y : Z) : bool :=
  (y mod 4 =? 0)%Z && (negb (y mod 100 =? 0)%Z || (y mod 400 =? 0)%Z).

Definition days_in_month (y m : Z) : Z :=
  if (m =? 2)%Z then (if is_leap y then 29 else 28)
  else if ((m =? 4) || (m =? 6) || (m =? 9) || (m =? 11))%Z then 30
  else 31.

Definition in_range (lo hi z : Z) : bool := ((lo <=? z) && (z <=? hi))%Z.

(** The field ranges [datetime] enforces. *)
Definition fields_ok (y mo d h mi s us : Z) : bool :=
  in_range 1 9999 y && in_range 1 12 mo && in_range 1 (days_in_month y mo) d
  && in_range 0 23 h && in_range 0 59 mi && in_range 0 59 s
  && in_range 0 999999 us.

(** The values a [datetime] object can have. *)
Definition valid (d : datetime) : bool :=
  fields_ok (year d) (month d) (day d) (hour d) (minute d) (second d)
    (microsecond d).

(** What the wire form keeps of a value: whole milliseconds, no
    [tzinfo]. *)
Definition wire_image (d : datetime) : datetime :=
  mk_datetime (year d) (month d) (day d) (hour d) (minute d) (second d)
    (microsecond d / 1000 * 1000) None.

(** An argument that must be an int. *)
Definition as_int (n : number) : result0 Z :=
  match n with
  | Int z => Ok z
  | Float _ => Raise TypeError
  end.

(** [dt.datetime(year, month, day, hour, minute, second, microsecond)]:
    a float argument is a [TypeError], a field out of range a
    [ValueError]. *)
Definition dt_datetime (y mo d h mi s us : number) : result0 datetime :=
  y <<- as_int y ;;
  mo <<- as_int mo ;;
  d <<- as_int d ;;
  h <<- as_int h ;;
  mi <<- as_int mi ;;
  s <<- as_int s ;;
  us <<- as_int us ;;
  if fields_ok y mo d h mi s us then Ok (mk_datetime y mo d h mi s us None)
  else Raise ValueError.

(** [js[key]] *)
Definition item (js : gmap string number) (key : string) : result0 number :=
  match js !! key with
  | Some n => Ok n
  | None => Raise KeyError
  end.

(** The codec; its second argument, [manager], is not used. *)
Definition datetime_to_json (mode : division) (pydt : option datetime)
    : option (gmap string number) :=
  match pydt with
  | None => None
  | Some pydt =>
      Some (list_to_map
        [("year", Int (year pydt));
         ("month", py_sub (Int (month pydt)) 1);
         ("date", Int (day pydt));
         ("hours", Int (hour pydt));
         ("minutes", Int (minute pydt));
         ("seconds", Int (second pydt));
         ("milliseconds", py_div mode (Int (microsecond pydt)) 1000)]%string)
  end.

Definition datetime_from_json (js : option (gmap string number))
    : result0 (option datetime) :=
  match js with
  | None => Ok None
  | Some js =>
      y <<- item js "year" ;;
      mo <<- item js "month" ;;
      d <<- item js "date" ;;
      h <<- item js "hours" ;;
      mi <<- item js "minutes" ;;
      s <<- item js "seconds" ;;
      ms <<- item js "milliseconds" ;;
      pydt <<- dt_datetime y (py_add mo 1) d h mi s (py_mul ms 1000) ;;
      Ok (Some pydt)
  end.

End Datetime.

(** ** InstanceDict *)

Module InstanceDict.
Section Validate.
(** Python objects. *)
Context {object : Type}.
(** [isinstance(value, dict)]: the entries of a value that is a dict. *)
Context (as_dict : object -> option (gmap string object)).
(** The constructor of the target type, [self.klass], called with the
    entries as named arguments. *)
Context (klass : gmap string object -> result object object).
(** [isinstance(value, self.klass)] *)
Context (isinstance_klass : object -> bool).

(** [Instance.validate] of traitlets. *)
Definition Instance_validate (value : object) : result object object :=
  if isinstance_klass value then Ok value else Raise (TraitError value).

Definition validate (value : object) : result object object :=
  match as_dict value with
  | Some kwargs =>
      instance <<- klass kwargs ;;
      Instance_validate instance
  | None => Instance_validate value
  end.

End Validate.
End InstanceDict.

(** ** NumberFormat *)

Module NumberFormat.

(** [^(?:(.)?([<>=^]))?([+\-\( ])?([$#])?(0)?(\d+)?(,)?(\.\d+)?([a-z%])?$],
    compiled with [re.I]. *)
Definition _number_format_re : Re.regex :=
  Re.Cat Re.Bol
  (Re.Cat (Re.Opt (Re.Cat (Re.Opt (Re.Group 1 Re.Dot))
                     (Re.Group 2 (Re.Class [Re.Lit "<"; Re.Lit ">"; Re.Lit "="; Re.Lit "^"]))))
  (Re.Cat (Re.Opt (Re.Group 3 (Re.Class [Re.Lit "+"; Re.Lit "-"; Re.Lit "("; Re.Lit " "])))
  (Re.Cat (Re.Opt (Re.Group 4 (Re.Class [Re.Lit "$"; Re.Lit "#"])))
  (Re.Cat (Re.Opt (Re.Group 5 (Re.Class [Re.Lit "0"])))
  (Re.Cat (Re.Opt (Re.Group 6 (Re.Many1 [Re.Digit])))
  (Re.Cat (Re.Opt (Re.Group 7 (Re.Class [Re.Lit ","])))
  (Re.Cat (Re.Opt (Re.Group 8 (Re.Cat (Re.Class [Re.Lit "."]) (Re.Many1 [Re.Digit]))))
  (Re.Cat (Re.Opt (Re.Group 9 (Re.Class [Re.Range "a" "z"; Re.Lit "%"])))
   Re.Eol)))))))).

(** The members of the set [_number_format_types]. *)
Definition _number_format_types : list string :=
  ["e"; "f"; "g"; "r"; "s"; "%"; "p"; "b"; "o"; "d"; "x"; "X"; "c";
   EmptyString]%string.

(** [repr] of a string without quotes or escapes, and of a list of them. *)
Definition repr_str (s : string) : string := ("'" ++ s ++ "'")%string.

Fixpoint join (sep : string) (l : list string) : string :=
  match l with
  | [] => EmptyString
  | [s] => s
  | s :: l' => (s ++ sep ++ join sep l')%string
  end.

Definition repr_list (l : list string) : string :=
  ("[" ++ join ", " (repr_str <$> l) ++ "]")%string.

Section Validate.
(** [list(_number_format_types)]: the members of the set in the order in
    which the interpreter iterates it, which depends on how it hashes
    strings and is not fixed by the program. *)
Context (listed_types : list string).

(** The message of the [TraitError] for a type code outside the set. *)
Definition type_error_message (format_type : string) : string :=
  ("The type specifier of a NumberFormat trait must be one of "
   ++ repr_list listed_types ++ ", but a value of '"
   ++ format_type ++ "' was specified.")%string.

(** [Unicode.validate] of traitlets returns a string as it is. *)
Definition Unicode_validate (value : string) : result string string :=
  Ok value.

Definition validate (value : string) : result string string :=
  value <<- Unicode_validate value ;;
  match Re.match_ true _number_format_re value with
  | None => Raise (TraitError value)
  | Some re_match =>
      match re_match !! 9%nat with
      | None => Ok value
      | Some format_type =>
          if bool_decide (format_type ∈ _number_format_types) then Ok value
          else Raise (TraitErrorMsg (type_error_message format_type))
      end
  end.

End Validate.

End NumberFormat.

(** ** Change records

    [Bunch(key=, old=, new=)], [Bunch(key=, old=)] and
    [Bunch(old=, new=)].  The sentinel [Undefined] of an [old] field is
    [None]; the containers hold proper values only. *)
Inductive Bunch (K V C : Type) : Type :=
  | Bunch_key_old_new (key : K) (old : option V) (new : V)
  | Bunch_key_old (key : K) (old : V)
  | Bunch_old_new (old new : C).
Arguments Bunch_key_old_new {K V C} key old new.
Arguments Bunch_key_old {K V C} key old.
Arguments Bunch_old_new {K V C} old new.

(** The key of a per-element record. *)
Definition Bunch_key {K V C} (b : Bunch K V C) : option K :=
  match b with
  | Bunch_key_old_new k _ _ => Some k
  | Bunch_key_old k _ => Some k
  | Bunch_old_new _ _ => None
  end.

(** ** The eventful wrapping protocol *)

Module Eventful.

(** What a wrapped method does to the state: it returns, or it raises and
    leaves the state as it is at that point. *)
Inductive effect (S R : Type) : Type :=
  | Done (s : S) (r : R)
  | Fail (e : exn0) (s : S).
Arguments Done {S R} s r.
Arguments Fail {S R} e s.

(** The outcome of an instrumented call: the final state, the value
    returned to the caller and the change notifications emitted, or the
    exception and the state it leaves behind. *)
Inductive outcome (S R E : Type) : Type :=
  | Returned (s : S) (r : R) (events : list E)
  | Raised (e : exn0) (s : S).
Arguments Returned {S R E} s r events.
Arguments Raised {S R E} e s.

Definition events_of {S R E} (o : outcome S R E) : list E :=
  match o with
  | Returned _ _ evs => evs
  | Raised _ _ => []
  end.

Section Protocol.
Context {S St R E : Type}.

(** Modelled from the spec: the instrumented methods of the class
    [Eventful] of [eventful.py].  An instrumented method runs the before-hook of its abstract
    operation and keeps what it returns, invokes the original method
    with the original arguments, runs the after-hook on the container
    and the kept state, emits the records the after-hook produced and
    returns the original result unchanged.  If the before-hook or the
    wrapped method raises, the after-hook does not run, nothing is
    emitted and the container stays as the raise left it. *)
Definition instrumented
    (before : S -> result0 (S * St))
    (original : S -> effect S R)
    (after : S -> St -> result0 (list E))
    (s : S) : outcome S R E :=
  match before s with
  | Raise e => Raised e s
  | Ok (s1, st) =>
      match original s1 with
      | Fail e s2 => Raised e s2
      | Done s2 r =>
          match after s2 st with
          | Raise e => Raised e s2
          | Ok evs => Returned s2 r evs
          end
      end
  end.
End Protocol.

Section Abstracted.
Context {C Args St : Type}.

(** Modelled from the spec: [abstracted(value, name)] brackets any
    number of invocations of the primitive [name]; each invocation
    [prim(args)] inside the [with] block runs the primitive's
    before-hook on the container as it is then and keeps the result,
    in call order.  The context object returned by the hook then
    serves as the after-hook. *)
Definition abstracted (before_prim : C -> Args -> result0 St)
    (value : C) (calls : list Args) : result0 (list St) :=
  rmapM (before_prim value) calls.

(** Modelled from the spec: [abstracted_once(value, name)] brackets
    exactly one invocation of the primitive. *)
Definition abstracted_once (before_prim : C -> Args -> result0 St)
    (value : C) (call : Args) : result0 (list St) :=
  abstracted before_prim value [call].
End Abstracted.

End Eventful.

(** ** EventfulElements: the [setitem] / [delitem] hooks *)

(** [value[key]] of a container. *)
Class GetItem (C K V : Type) := getitem : C -> K -> result0 V.
Global Hint Mode GetItem ! - - : typeclass_instances.

Module EventfulElements.
Section Hooks.
Context {C K V : Type} `{!GetItem C K V} `{!EqDecision V}.

(** [except (KeyError, IndexError)] *)
Definition is_KeyError_or_IndexError (e : exn0) : bool :=
  match e with
  | KeyError | IndexError => true
  | _ => false
  end.

Definition _before_setitem (value : C) (key : K) : result0 (K * option V) :=
  match getitem value key with
  | Ok old => Ok (key, Some old)
  | Raise e =>
      if is_KeyError_or_IndexError e then Ok (key, None) else Raise e
  end.

Definition _after_setitem (value : C) (before : K * option V)
    : result0 (option (Bunch K V C)) :=
  let '(key, old) := before in
  new <<- getitem value key ;;
  if decide (Some new <> old) then Ok (Some (Bunch_key_old_new key old new))
  else Ok None.

Definition _before_delitem (value : C) (key : K)
    : result0 (option (Bunch K V C)) :=
  match getitem value key with
  | Ok old => Ok (Some (Bunch_key_old key old))
  | Raise KeyError => Ok None
  | Raise e => Raise e
  end.

(** Modelled from the spec: the after-hook of a [setitem] bracket
    re-reads every bracketed key and yields the records of those whose
    value differs, in bracket order; the after-hook of a [delitem]
    bracket yields the records its before-hook built. *)
Definition after_setitems (value : C) (states : list (K * option V))
    : result0 (list (Bunch K V C)) :=
  rmap (omap id) (rmapM (_after_setitem value) states).

Definition after_delitems (value : C) (states : list (option (Bunch K V C)))
    : result0 (list (Bunch K V C)) :=
  Ok (omap id states).
End Hooks.
End EventfulElements.


(** ** EventfulDict *)

Module EventfulDict.

(** Objects are referred to by location.  The heap holds the contents of
    the dict objects; a location that holds none stands for an object of
    another type. *)
Definition loc := positive.

Section Dict.
Context {K V : Type} `{Countable K} `{!EqDecision V}.

Local Abbreviation dict := (gmap K V).
Local Abbreviation heap := (gmap loc (gmap K V)).
Local Abbreviation record := (Bunch K V (gmap K V)).

(** [d[k]] *)
Definition dict_getitem (d : dict) (k : K) : result0 V :=
  match d !! k with
  | Some v => Ok v
  | None => Raise KeyError
  end.

#[export] Instance dict_GetItem : GetItem dict K V := dict_getitem.

(** Reading a dict through a reference; on an object that is no dict the
    attribute looked up ([update], [__getitem__]) is missing. *)
Definition deref (h : heap) (l : loc) : result0 dict :=
  match h !! l with
  | Some d => Ok d
  | None => Raise AttributeError
  end.

(** [d.update(other)]: the entries of [other] win. *)
Definition update_with (other d : dict) : dict := other ∪ d.

(** [event_map]: the calls that are instrumented, with their arguments.
    [update] takes its positional arguments as references and its named
    arguments as the fresh dict the interpreter builds for [**kwargs]. *)
Inductive call : Type :=
  | Call_setitem (k : K) (v : V)
  | Call_setdefault (k : K) (v : V)
  | Call_delitem (k : K)
  | Call_pop (k : K) (default : option V)
  | Call_update (args : list loc) (kwargs : dict)
  | Call_clear.

(** The wrapped methods of [dict], acting on the container at [self]. *)
Definition original (self : loc) (c : call) (h : heap)
    : Eventful.effect heap (option V) :=
  match h !! self with
  | None => Eventful.Fail AttributeError h
  | Some d =>
      match c with
      | Call_setitem k v => Eventful.Done (<[self := <[k := v]> d]> h) None
      | Call_setdefault k v =>
          match d !! k with
          | Some w => Eventful.Done h (Some w)
          | None => Eventful.Done (<[self := <[k := v]> d]> h) (Some v)
          end
      | Call_delitem k =>
          match d !! k with
          | Some _ => Eventful.Done (<[self := delete k d]> h) None
          | None => Eventful.Fail KeyError h
          end
      | Call_pop k default =>
          match d !! k, default with
          | Some w, _ => Eventful.Done (<[self := delete k d]> h) (Some w)
          | None, Some w => Eventful.Done h (Some w)
          | None, None => Eventful.Fail KeyError h
          end
      | Call_update [] kwargs =>
          Eventful.Done (<[self := update_with kwargs d]> h) None
      | Call_update [a] kwargs =>
          match h !! a with
          | Some other =>
              Eventful.Done
                (<[self := update_with kwargs (update_with other d)]> h) None
          | None => Eventful.Fail TypeError h
          end
      | Call_update _ _ => Eventful.Fail TypeError h
      | Call_clear => Eventful.Done (<[self := ∅]> h) None
      end
  end.

(** The element hooks of [EventfulElements], on the container at [self]. *)
Definition before_setitem (self : loc) (k : K) (h : heap)
    : result0 (heap * list (K * option V)) :=
  value <<- deref h self ;;
  st <<- EventfulElements._before_setitem value k ;;
  Ok (h, [st]).

Definition before_delitem (self : loc) (k : K) (h : heap)
    : result0 (heap * list (option record)) :=
  value <<- deref h self ;;
  st <<- EventfulElements._before_delitem value k ;;
  Ok (h, [st]).

(** The hook of [update]: [new.update(call.kwargs)] changes the object
    at the first positional argument in the heap, whichever object that
    is; the notifications it causes when that object is the container
    are [inner_update_events] below. *)
Definition _before_update (self : loc) (args : list loc) (kwargs : dict)
    (h : heap) : result0 (heap * list (K * option V)) :=
  hn <<- match args with
         | a :: _ =>
             new <<- deref h a ;;
             let new' := update_with kwargs new in
             Ok (<[a := new']> h, new')
         | [] => Ok (h, kwargs)
         end ;;
  let '(h1, new) := hn in
  value <<- deref h1 self ;;
  setitem <<- Eventful.abstracted
                (fun value kv => EventfulElements._before_setitem value (fst kv))
                value (map_to_list new) ;;
  Ok (h1, setitem).

Definition _before_clear (self : loc) (h : heap)
    : result0 (heap * list (option record)) :=
  value <<- deref h self ;;
  delitem <<- Eventful.abstracted EventfulElements._before_delitem
                value (fst <$> map_to_list value) ;;
  Ok (h, delitem).

Definition after_setitems (self : loc) (h : heap)
    (st : list (K * option V)) : result0 (list record) :=
  value <<- deref h self ;;
  EventfulElements.after_setitems value st.

Definition after_delitems (self : loc) (h : heap)
    (st : list (option record)) : result0 (list record) :=
  value <<- deref h self ;;
  EventfulElements.after_delitems value st.

(** The record of a [setitem] bracket on the key of [kv] that captured the
    contents [d] and finds the value of [kv] afterwards, and the record of
    a [delitem] bracket on an entry [kv]. *)
Definition setitem_record (d : dict) (kv : K * V) : option record :=
  if decide (Some (snd kv) <> d !! fst kv)
  then Some (Bunch_key_old_new (fst kv) (d !! fst kv) (snd kv))
  else None.

Definition delitem_record (kv : K * V) : record :=
  Bunch_key_old (fst kv) (snd kv).

(** The instrumented [update] by itself: its hook, the wrapped method and
    the records of the hook's brackets. *)
Definition update_call (self : loc) (args : list loc) (kwargs : dict)
    (h : heap) : Eventful.outcome heap (option V) record :=
  Eventful.instrumented (_before_update self args kwargs)
    (original self (Call_update args kwargs)) (after_setitems self) h.

(** [new.update(call.kwargs)] in [_before_update] is the method of [dict]
    on any object but the eventful container, whose [update] is the
    instrumented one: when the first positional argument is the container
    itself, the hook calls the container's own [update] with the named
    arguments as its mapping.  That inner call changes the heap as
    [_before_update] says and emits its notifications while the hook
    runs, before the hook opens its brackets; they are the records of an
    [update] with these entries on the contents the container has then. *)
Definition inner_update_events (self : loc) (args : list loc) (kwargs : dict)
    (h : heap) : list record :=
  match args with
  | a :: _ =>
      if decide (a = self)
      then Eventful.events_of (update_call self [] kwargs h)
      else []
  | [] => []
  end.

(** An instrumented call on the eventful dict at [self]. *)
Definition send (self : loc) (c : call) (h : heap)
    : Eventful.outcome heap (option V) record :=
  match c with
  | Call_setitem k _ | Call_setdefault k _ =>
      Eventful.instrumented (before_setitem self k) (original self c)
        (after_setitems self) h
  | Call_delitem k | Call_pop k _ =>
      Eventful.instrumented (before_delitem self k) (original self c)
        (after_delitems self) h
  | Call_update args kwargs =>
      match update_call self args kwargs h with
      | Eventful.Returned h' r evs =>
          Eventful.Returned h' r
            (inner_update_events self args kwargs h ++ evs)
      | Eventful.Raised e h' => Eventful.Raised e h'
      end
  | Call_clear =>
      Eventful.instrumented (_before_clear self) (original self c)
        (after_delitems self) h
  end.

End Dict.
End EventfulDict.

(** ** EventfulList *)

Module EventfulList.
Section List.
Context {A : Type} `{!EqDecision A}.
(** The order [sort] arranges by. *)
Context (le : relation A) `{!forall x y, Decision (le x y)}.

Local Abbreviation record := (Bunch Z A (list A)).

(** The position an index denotes in a list of length [n]; negative
    indices count from the end. *)
Definition position (n : nat) (i : Z) : option nat :=
  if decide (0 <= i)%Z then
    if decide (i < Z.of_nat n)%Z then Some (Z.to_nat i) else None
  else
    if decide (- Z.of_nat n <= i)%Z then Some (Z.to_nat (Z.of_nat n + i))
    else None.

(** [l[i]] *)
Definition list_getitem (l : list A) (i : Z) : result0 A :=
  match position (length l) i with
  | Some j =>
      match l !! j with
      | Some x => Ok x
      | None => Raise IndexError
      end
  | None => Raise IndexError
  end.

#[export] Instance list_GetItem : GetItem (list A) Z A := list_getitem.

(** [l.index(x)]: the position of the first element equal to [x]. *)
Fixpoint index (l : list A) (x : A) : result0 nat :=
  match l with
  | [] => Raise ValueError
  | y :: l' => if decide (y = x) then Ok 0%nat else rmap S (index l' x)
  end.

(** [enumerate(xs)] *)
Definition enumerate (xs : list A) : list (Z * A) :=
  imap (fun i v => (Z.of_nat i, v)) xs.

(** The calls on an eventful list.  The argument of [extend] is any
    iterable: [Call_extend xs] is the call with a sequence (a list or a
    tuple) of the elements [xs], which each iteration goes through from
    its start; [Call_extend_iterator xs] is the call with an iterator or
    a generator that yields [xs], which can be gone through once. *)
Inductive call : Type :=
  | Call_append (x : A)
  | Call_extend (xs : list A)
  | Call_extend_iterator (xs : list A)
  | Call_setitem (i : Z) (x : A)
  | Call_remove (x : A)
  | Call_delitem (i : Z)
  | Call_reverse
  | Call_sort.

(** The wrapped methods of [list]. *)
Definition original (c : call) (l : list A) : Eventful.effect (list A) unit :=
  match c with
  | Call_append x => Eventful.Done (l ++ [x]) tt
  | Call_extend xs | Call_extend_iterator xs => Eventful.Done (l ++ xs) tt
  | Call_setitem i x =>
      match position (length l) i with
      | Some j => Eventful.Done (<[j := x]> l) tt
      | None => Eventful.Fail IndexError l
      end
  | Call_remove x =>
      match index l x with
      | Ok j => Eventful.Done (delete j l) tt
      | Raise e => Eventful.Fail e l
      end
  | Call_delitem i =>
      match position (length l) i with
      | Some j => Eventful.Done (delete j l) tt
      | None => Eventful.Fail IndexError l
      end
  | Call_reverse => Eventful.Done (rev l) tt
  | Call_sort => Eventful.Done (merge_sort le l) tt
  end.

(** A hook that only reads the container. *)
Definition reading {St} (hook : list A -> result0 St) (value : list A)
    : result0 (list A * St) :=
  st <<- hook value ;; Ok (value, st).

Definition _before_append (value : list A) (x : A)
    : result0 (list (Z * option A)) :=
  Eventful.abstracted_once
    (fun value kv => EventfulElements._before_setitem value (fst kv))
    value (Z.of_nat (length value), x).

Definition _before_extend (value : list A) (xs : list A)
    : result0 (list (Z * option A)) :=
  Eventful.abstracted
    (fun value kv => EventfulElements._before_setitem value (fst kv))
    value (enumerate xs).

Definition _before_remove (value : list A) (x : A)
    : result0 (list (option record)) :=
  i <<- index value x ;;
  Eventful.abstracted_once EventfulElements._before_delitem
    value (Z.of_nat i).

(** [rearrangement(new)]: [old = new[:]] copies the contents; the
    closure returned holds [new], the container itself, so that its record
    shows the contents the container has when the closure runs. *)
Definition rearrangement (new : list A) : list A -> record :=
  let old := new in
  fun value => Bunch_old_new old value.

Definition _before_reverse (value : list A) : result0 (list A -> record) :=
  Ok (rearrangement value).

Definition _before_sort (value : list A) : result0 (list A -> record) :=
  Ok (rearrangement value).

(** A hook result that is callable is called with the container after the
    mutation and its record is emitted. *)
Definition after_closure (value : list A) (f : list A -> record)
    : result0 (list record) :=
  Ok [f value].

(** An instrumented call on an eventful list.  The hook of [extend]
    goes through [call.args[0]] with [enumerate] before the wrapped
    [list.extend] receives the same object: a sequence is gone through
    again, an iterator has nothing left to yield. *)
Definition send (c : call) (l : list A) : Eventful.outcome (list A) unit record :=
  match c with
  | Call_append x =>
      Eventful.instrumented (reading (fun v => _before_append v x))
        (original c) EventfulElements.after_setitems l
  | Call_extend xs =>
      Eventful.instrumented (reading (fun v => _before_extend v xs))
        (original c) EventfulElements.after_setitems l
  | Call_extend_iterator xs =>
      Eventful.instrumented (reading (fun v => _before_extend v xs))
        (original (Call_extend_iterator [])) EventfulElements.after_setitems l
  | Call_setitem i _ =>
      Eventful.instrumented
        (reading (fun v => rmap (fun st => [st]) (EventfulElements._before_setitem v i)))
        (original c) EventfulElements.after_setitems l
  | Call_remove x =>
      Eventful.instrumented (reading (fun v => _before_remove v x))
        (original c) EventfulElements.after_delitems l
  | Call_delitem i =>
      Eventful.instrumented
        (reading (fun v => rmap (fun st => [st]) (EventfulElements._before_delitem v i)))
        (original c) EventfulElements.after_delitems l
  | Call_reverse =>
      Eventful.instrumented (reading _before_reverse) (original c)
        after_closure l
  | Call_sort =>
      Eventful.instrumented (reading _before_sort) (original c)
        after_closure l
  end.

End List.
End EventfulList.


(** ** Sample values *)

(** The dict [{"a": 1}] at location 1 as the container and [{"a": 1}],
    [{"a": 1, "b": 2}] at locations 2 and 3 as arguments. *)
Definition sample_heap : gmap EventfulDict.loc (gmap string Z) :=
  {[ 1%positive := {[ "a"%string := 1%Z ]};
     2%positive := {[ "a"%string := 1%Z ]};
     3%positive := {[ "a"%string := 1%Z; "b"%string := 2%Z ]} ]}.

(** 2000-01-02 03:04:05.001500 and 2000-01-02 03:04:05.002000, naive. *)
Definition sample_datetime_us : Datetime.datetime :=
  Datetime.mk_datetime 2000 1 2 3 4 5 1500 None.

Definition sample_datetime_ms : Datetime.datetime :=
  Datetime.mk_datetime 2000 1 2 3 4 5 2000 None.

(** A small universe of objects for [InstanceDict]: dicts of ints,
    ints, strings and instances of a target class with one optional int
    attribute [a], whose constructor takes the keyword [a] and no other. *)
Inductive sample_object : Type :=
  | Sample_dict (entries : gmap string Z)
  | Sample_int (z : Z)
  | Sample_str (s : string)
  | Sample_target (a : option Z).

Definition sample_as_dict (o : sample_object)
    : option (gmap string sample_object) :=
  match o with
  | Sample_dict entries => Some (Sample_int <$> entries)
  | _ => None
  end.

Definition sample_klass (kwargs : gmap string sample_object)
    : result sample_object sample_object :=
  if decide (dom kwargs ⊆ ({[ "a"%string ]} : gset string)) then
    match kwargs !! "a"%string with
    | None => Ok (Sample_target None)
    | Some (Sample_int z) => Ok (Sample_target (Some z))
    | Some _ => Raise TypeError
    end
  else Raise TypeError.

Definition sample_isinstance (o : sample_object) : bool :=
  match o with
  | Sample_target _ => true
  | _ => false
  end.

(** ** Auxiliary notions for the statements *)

(** The keys of the wire form of a date/time value. *)
Definition wire_keys : gset string :=
  {[ "year"; "month"; "date"; "hours"; "minutes"; "seconds";
     "milliseconds" ]}%string.

(** In the pattern [r] every group numbered [n0] is one character set,
    all of whose members satisfy [p]. *)
Fixpoint group_is_class (ignorecase : bool) (n0 : nat) (p : ascii -> bool)
    (r : Re.regex) : Prop :=
  match r with
  | Re.Group n r1 =>
      (n = n0 ->
       exists items, r1 = Re.Class items
         /\ forall c, Re.in_class ignorecase items c = true -> p c = true)
      /\ group_is_class ignorecase n0 p r1
  | Re.Cat r1 r2 =>
      group_is_class ignorecase n0 p r1 /\ group_is_class ignorecase n0 p r2
  | Re.Opt r1 => group_is_class ignorecase n0 p r1
  | _ => True
  end.

(** A letter of either case or the percent sign. *)
Definition is_letter_or_percent (c : ascii) : bool :=
  Re.between "a" "z" c || Re.between "A" "Z" c || bool_decide (c = "%"%char).

(** The characters of a string, for statements over all strings of a
    shape. *)
Definition string_of (cs : list ascii) : string := string_of_list_ascii cs.

(** * Properties *)

(** ** The result monad *)

Lemma rmapM_total {X A B} (f : A -> result X B) (g : A -> B) (l : list A) :
  (forall a, a ∈ l -> f a = Ok (g a)) -> rmapM f l = Ok (g <$> l).
Proof.
  induction l as [|a l IH]; intros Hf; simpl; [done|].
  rewrite Hf by left. simpl. rewrite IH; [done|].
  intros b Hb. apply Hf. by right.
Qed.

(** ** EventfulList *)

Section ListProperties.
Context {A : Type} `{!EqDecision A}.
Context (le : relation A) `{!forall x y, Decision (le x y)}.

Import EventfulList.

Lemma position_of_nat (n i : nat) :
  i < n -> position n (Z.of_nat i) = Some i.
Proof.
  intros Hi. unfold position.
  destruct (decide (0 <= Z.of_nat i)%Z) as [_|Hn]; [|lia].
  destruct (decide (Z.of_nat i < Z.of_nat n)%Z) as [_|Hn]; [|lia].
  by rewrite Nat2Z.id.
Qed.

Lemma position_of_nat_ge (n i : nat) :
  n <= i -> position n (Z.of_nat i) = None.
Proof.
  intros Hi. unfold position.
  destruct (decide (0 <= Z.of_nat i)%Z) as [_|Hn]; [|lia].
  destruct (decide (Z.of_nat i < Z.of_nat n)%Z) as [Hn|_]; [lia|done].
Qed.

(** [value[i]] at a position [i] counted from the front. *)
Lemma getitem_of_nat (l : list A) (i : nat) :
  getitem l (Z.of_nat i) =
    match l !! i with Some x => Ok x | None => Raise IndexError end.
Proof.
  unfold getitem, list_GetItem, list_getitem.
  destruct (l !! i) as [x|] eqn:Hl.
  - rewrite position_of_nat by (by eapply lookup_lt_Some). by rewrite Hl.
  - rewrite position_of_nat_ge; [done|]. by apply lookup_ge_None.
Qed.

(** The element hook at a position counted from the front captures the
    element there, or [Undefined] past the end. *)
Lemma _before_setitem_of_nat (l : list A) (i : nat) :
  EventfulElements._before_setitem l (Z.of_nat i) = Ok (Z.of_nat i, l !! i).
Proof.
  unfold EventfulElements._before_setitem. rewrite getitem_of_nat.
  by destruct (l !! i).
Qed.

Lemma _before_delitem_of_nat (l : list A) (i : nat) (x : A) :
  l !! i = Some x ->
  EventfulElements._before_delitem l (Z.of_nat i)
  = Ok (Some (Bunch_key_old (Z.of_nat i) x)).
Proof.
  intros Hl. unfold EventfulElements._before_delitem.
  by rewrite getitem_of_nat, Hl.
Qed.

Lemma index_Ok (l : list A) (x : A) (i : nat) :
  index l x = Ok i ->
  l !! i = Some x /\ forall j, j < i -> l !! j <> Some x.
Proof.
  revert i. induction l as [|y l IH]; intros i; simpl; [discriminate|].
  destruct (decide (y = x)) as [->|Hne].
  - intros [= <-]. split; [done|]. intros j Hj. lia.
  - unfold rmap. destruct (index l x) as [i'|] eqn:Hi; simpl; [|discriminate].
    intros [= <-]. destruct (IH i' eq_refl) as [Hx Hfirst]. split; [done|].
    intros [|j] Hj; simpl; [congruence|]. apply Hfirst. lia.
Qed.

Lemma index_elem_of (l : list A) (x : A) :
  x ∈ l -> exists i, index l x = Ok i.
Proof.
  induction l as [|y l IH]; [by intros ?%elem_of_nil|].
  intros Hx. simpl. destruct (decide (y = x)) as [->|Hne]; [by exists 0|].
  apply elem_of_cons in Hx as [->|Hx]; [done|].
  destruct (IH Hx) as [i ->]. by exists (S i).
Qed.

Lemma index_not_elem_of (l : list A) (x : A) :
  x ∉ l -> index l x = Raise ValueError.
Proof.
  induction l as [|y l IH]; [done|].
  intros Hx. apply not_elem_of_cons in Hx as [Hne Hx]. simpl.
  destruct (decide (y = x)) as [->|_]; [done|]. by rewrite IH.
Qed.

(** The brackets [extend] opens: one per element of the iterable, in its
    order, at the positions [enumerate] counts, which start at 0; each
    captures what the container holds there. *)
Lemma _before_extend_brackets (value xs : list A) :
  _before_extend value xs
  = Ok (imap (fun i _ => (Z.of_nat i, value !! i)) xs).
Proof.
  unfold _before_extend, Eventful.abstracted, enumerate.
  assert (forall (f g : nat -> A -> _),
    (forall i v, EventfulElements._before_setitem value (fst (f i v)) = Ok (g i v)) ->
    rmapM (fun kv : Z * A => EventfulElements._before_setitem value (fst kv))
      (imap f xs) = Ok (imap g xs)) as Hgen.
  { induction xs as [|v xs IH]; intros f g Hfg; simpl; [done|].
    rewrite Hfg. simpl. rewrite (IH (f ∘ S) (g ∘ S)); [done|].
    intros i w. apply Hfg. }
  apply Hgen. intros i v. simpl. apply _before_setitem_of_nat.
Qed.

(** C1 (as the code has it): [extend] on a list of two elements with an
    iterable of two elements opens its two [setitem] brackets at the
    indices 0 and 1, not at 2 and 3 as [append] would (it brackets at
    [len(value)]); the elements there do not change, and no notification
    is emitted. *)
Theorem extend_brackets_start_at_zero :
  rmap (map fst) (_before_extend [10; 20]%Z [30; 40]%Z) = Ok [0; 1]%Z
  /\ rmap (map fst) (_before_append [10; 20]%Z 30%Z) = Ok [2]%Z
  /\ send Z.le (Call_extend [30; 40]%Z) [10; 20]%Z
     = Eventful.Returned [10; 20; 30; 40]%Z tt [].
Proof. repeat split; vm_compute; reflexivity. Qed.

(** Brackets that captured what the list still holds yield no record. *)
Lemma after_setitems_unchanged (l : list A) (states : list (Z * option A)) :
  (forall st, st ∈ states ->
     exists (i : nat) (x : A), st = (Z.of_nat i, Some x) /\ l !! i = Some x) ->
  EventfulElements.after_setitems l states = Ok [].
Proof.
  intros Hst. unfold EventfulElements.after_setitems.
  rewrite (rmapM_total _ (fun _ => None)).
  - simpl. f_equal. clear Hst. induction states as [|st states IH]; csimpl; done.
  - intros st Hin. destruct (Hst st Hin) as (i & x & -> & Hl).
    unfold EventfulElements._after_setitem. rewrite getitem_of_nat, Hl. simpl.
    by destruct (decide (Some x <> Some x)).
Qed.

(** [extend] with an iterable that is not longer than the list emits no
    notification at all: its brackets are at the front of the list, where
    nothing changes. *)
Theorem extend_silent_when_not_longer (value xs : list A) :
  length xs <= length value ->
  send le (Call_extend xs) value = Eventful.Returned (value ++ xs) tt [].
Proof.
  intros Hlen. unfold send, Eventful.instrumented, reading.
  rewrite _before_extend_brackets. simpl.
  rewrite after_setitems_unchanged; [done|].
  intros st (i & y & -> & Hy)%elem_of_lookup_imap.
  assert (i < length value) as Hi by (apply lookup_lt_Some in Hy; lia).
  destruct (lookup_lt_is_Some_2 value i Hi) as [x Hx].
  exists i, x. rewrite Hx. split; [done|]. by apply lookup_app_l_Some.
Qed.

(** C6: [reverse] and [sort] snapshot the contents before the mutation
    and always emit exactly one record, with the snapshot as [old] and the
    current contents as [new]; nothing is suppressed when the two are
    equal, as for a list of one element or a reverse that changes
    nothing. *)
Theorem rearrangement_emits_one_record (l : list A) :
  send le Call_reverse l
    = Eventful.Returned (rev l) tt [Bunch_old_new l (rev l)]
  /\ send le Call_sort l
    = Eventful.Returned (merge_sort le l) tt [Bunch_old_new l (merge_sort le l)]
  /\ (forall x : A,
        send le Call_sort [x] = Eventful.Returned [x] tt [Bunch_old_new [x] [x]]
        /\ send le Call_reverse [x]
           = Eventful.Returned [x] tt [Bunch_old_new [x] [x]])
  /\ (rev l = l ->
        Eventful.events_of (send le Call_reverse l) = [Bunch_old_new l l])
  /\ (merge_sort le l = l ->
        Eventful.events_of (send le Call_sort l) = [Bunch_old_new l l]).
Proof.
  split; [reflexivity|]. split; [reflexivity|]. split; [|split].
  - intros x. split; reflexivity.
  - intros Hrev. simpl. by rewrite Hrev.
  - intros Hsort. simpl. by rewrite Hsort.
Qed.

(** C7: [remove(x)] with [x] absent fails with [ValueError], emits
    nothing and leaves the list as it was; with [x] present it is
    bracketed as one [delitem] at the position of the first element equal
    to [x], which is the element removed and the one notified. *)
Theorem remove_absent_fails_present_delitem (l : list A) (x : A) :
  (x ∉ l ->
     _before_remove l x = Raise ValueError
     /\ send le (Call_remove x) l = Eventful.Raised ValueError l)
  /\ (x ∈ l ->
     exists i : nat,
       index l x = Ok i
       /\ l !! i = Some x
       /\ (forall j, j < i -> l !! j <> Some x)
       /\ _before_remove l x
          = Eventful.abstracted_once EventfulElements._before_delitem l (Z.of_nat i)
       /\ send le (Call_remove x) l
          = Eventful.Returned (delete i l) tt [Bunch_key_old (Z.of_nat i) x]).
Proof.
  split.
  - intros Hx. pose proof (index_not_elem_of l x Hx) as Hi.
    unfold send, Eventful.instrumented, reading, _before_remove.
    rewrite Hi. done.
  - intros Hx. destruct (index_elem_of l x Hx) as [i Hi].
    destruct (index_Ok l x i Hi) as [Hl Hfirst].
    exists i. repeat split; [done..| |].
    + unfold _before_remove. by rewrite Hi.
    + unfold send, Eventful.instrumented, reading, _before_remove.
      rewrite Hi. simpl.
      unfold Eventful.abstracted_once, Eventful.abstracted. simpl.
      rewrite (_before_delitem_of_nat l i x Hl). simpl. by rewrite Hi.
Qed.

End ListProperties.

(** [remove] on [[20; 10; 10]]: 7 is absent, 10 is first at position 1. *)
Lemma remove_absent_fails_present_delitem_witness :
  EventfulList.send Z.le (EventfulList.Call_remove 7%Z) [20; 10; 10]%Z
    = Eventful.Raised ValueError [20; 10; 10]%Z
  /\ exists i : nat,
       EventfulList.send Z.le (EventfulList.Call_remove 10%Z) [20; 10; 10]%Z
       = Eventful.Returned (delete i [20; 10; 10]%Z) tt
           [Bunch_key_old (Z.of_nat i) 10%Z].
Proof.
  split.
  - apply (remove_absent_fails_present_delitem Z.le [20; 10; 10]%Z 7%Z).
    intros Hin. repeat (apply elem_of_cons in Hin as [Hin|Hin]; [discriminate|]).
    by apply elem_of_nil in Hin.
  - destruct (proj2 (remove_absent_fails_present_delitem Z.le [20; 10; 10]%Z 10%Z))
      as (i & _ & _ & _ & _ & Hsend).
    + right. left.
    + exists i. exact Hsend.
Defined.

(** [[3; 1; 2]] is sorted and reversed with one record each, and so is
    the list [[7]], which neither changes. *)
Lemma rearrangement_emits_one_record_witness :
  EventfulList.send Z.le EventfulList.Call_sort [3; 1; 2]%Z
    = Eventful.Returned [1; 2; 3]%Z tt [Bunch_old_new [3; 1; 2]%Z [1; 2; 3]%Z]
  /\ EventfulList.send Z.le EventfulList.Call_reverse [3; 1; 2]%Z
    = Eventful.Returned [2; 1; 3]%Z tt [Bunch_old_new [3; 1; 2]%Z [2; 1; 3]%Z]
  /\ Eventful.events_of (EventfulList.send Z.le EventfulList.Call_sort [7]%Z)
    = [Bunch_old_new [7]%Z [7]%Z].
Proof.
  destruct (rearrangement_emits_one_record Z.le [3; 1; 2]%Z)
    as (Hrev & Hsort & _).
  destruct (rearrangement_emits_one_record Z.le [7]%Z)
    as (_ & _ & _ & _ & Hsame).
  split; [exact Hsort|]. split; [exact Hrev|]. apply Hsame. reflexivity.
Defined.

(** [[10; 20].extend([30; 40])] is silent. *)
Lemma extend_silent_when_not_longer_witness :
  EventfulList.send Z.le (EventfulList.Call_extend [30; 40]%Z) [10; 20]%Z
  = Eventful.Returned [10; 20; 30; 40]%Z tt [].
Proof.
  apply (extend_silent_when_not_longer Z.le [10; 20]%Z [30; 40]%Z).
  simpl. lia.
Defined.

(** ** EventfulDict *)

Lemma rmapM_fmap {X A B C} (f : B -> result X C) (g : A -> B) (l : list A) :
  rmapM f (g <$> l) = rmapM (fun a => f (g a)) l.
Proof. induction l as [|a l IH]; csimpl; [done|]. by rewrite IH. Qed.

Lemma omap_id_fmap {A B} (f : A -> option B) (l : list A) :
  omap id (f <$> l) = omap f l.
Proof.
  induction l as [|a l IH]; csimpl; [done|].
  rewrite IH. by destruct (f a).
Qed.

Lemma omap_Some_fmap {A B} (f : A -> B) (l : list A) :
  omap (fun a => Some (f a)) l = f <$> l.
Proof. induction l as [|a l IH]; csimpl; [done|]. by rewrite IH. Qed.

Lemma omap_all_None {A B} (f : A -> option B) (l : list A) :
  (forall a, a ∈ l -> f a = None) -> omap f l = [].
Proof.
  induction l as [|a l IH]; intros Hf; csimpl; [done|].
  rewrite (Hf a) by left. apply IH. intros b Hb. apply Hf. by right.
Qed.

(** Records built from entries with distinct keys have distinct keys. *)
Lemma NoDup_omap_keys {A K R} (key : R -> option K) (f : A -> K)
    (g : A -> option R) (l : list A) :
  (forall a r, g a = Some r -> key r = Some (f a)) ->
  NoDup (f <$> l) -> NoDup (omap key (omap g l)).
Proof.
  intros Hkey. induction l as [|a l IH]; simpl; [constructor|].
  intros [Ha Hl]%NoDup_cons. specialize (IH Hl).
  destruct (g a) as [r|] eqn:Hg; simpl; [|done].
  rewrite (Hkey a r Hg). simpl. apply NoDup_cons. split; [|done].
  intros Hin. apply Ha.
  apply list_elem_of_omap in Hin as (r' & Hr' & Hk).
  apply list_elem_of_omap in Hr' as (a' & Ha' & Hg').
  rewrite (Hkey a' r' Hg') in Hk. injection Hk as <-.
  by apply list_elem_of_fmap_2.
Qed.

Section DictProperties.
Context {K V : Type} `{Countable K} `{!EqDecision V}.

Import EventfulDict.

Local Abbreviation dict := (gmap K V).
Local Abbreviation heap := (gmap loc (gmap K V)).
Local Abbreviation record := (Bunch K V (gmap K V)).

Lemma dict_before_setitem (d : dict) (k : K) :
  EventfulElements._before_setitem d k = Ok (k, d !! k).
Proof.
  unfold EventfulElements._before_setitem, getitem, dict_GetItem, dict_getitem.
  by destruct (d !! k).
Qed.

Lemma dict_after_setitem (d d' : dict) (kv : K * V) :
  d' !! fst kv = Some (snd kv) ->
  EventfulElements._after_setitem d' (fst kv, d !! fst kv)
  = Ok (setitem_record d kv).
Proof.
  intros Hd'. unfold EventfulElements._after_setitem, setitem_record.
  unfold getitem, dict_GetItem, dict_getitem. rewrite Hd'. simpl.
  by destruct (decide (Some (snd kv) <> d !! fst kv)).
Qed.

Lemma dict_before_delitem (d : dict) (k : K) :
  EventfulElements._before_delitem d k
  = Ok (match d !! k with
        | Some old => Some (Bunch_key_old k old)
        | None => None
        end).
Proof.
  unfold EventfulElements._before_delitem, getitem, dict_GetItem, dict_getitem.
  by destruct (d !! k).
Qed.

(** The [setitem] brackets over the entries [l], opened on the contents
    [d]: each captures its key and the value [d] holds there. *)
Lemma abstracted_setitem (d : dict) (l : list (K * V)) :
  Eventful.abstracted
    (fun value kv => EventfulElements._before_setitem value (fst kv)) d l
  = Ok ((fun kv => (fst kv, d !! fst kv)) <$> l).
Proof.
  unfold Eventful.abstracted. apply rmapM_total.
  intros kv _. apply dict_before_setitem.
Qed.

(** Closing them on contents [d'] that hold every entry of [l]. *)
Lemma after_abstracted_setitem (d d' : dict) (l : list (K * V)) :
  (forall kv, kv ∈ l -> d' !! fst kv = Some (snd kv)) ->
  EventfulElements.after_setitems d' ((fun kv => (fst kv, d !! fst kv)) <$> l)
  = Ok (omap (setitem_record d) l).
Proof.
  intros Hl. unfold EventfulElements.after_setitems.
  rewrite rmapM_fmap.
  rewrite (rmapM_total _ (setitem_record d)).
  - simpl. by rewrite omap_id_fmap.
  - intros kv Hkv. by apply dict_after_setitem, Hl.
Qed.

Lemma setitem_record_changed (d : dict) (k : K) (v : V) :
  d !! k <> Some v ->
  setitem_record d (k, v) = Some (Bunch_key_old_new k (d !! k) v).
Proof.
  intros Hk. unfold setitem_record. simpl.
  destruct (decide (Some v <> d !! k)) as [|Hn]; [done|].
  exfalso. apply Hn. congruence.
Qed.

Lemma setitem_record_same (d : dict) (k : K) (v : V) :
  d !! k = Some v -> setitem_record d (k, v) = None.
Proof.
  intros Hk. unfold setitem_record. simpl.
  destruct (decide (Some v <> d !! k)); [congruence|done].
Qed.

Lemma setitem_record_key (d : dict) (kv : K * V) (r : record) :
  setitem_record d kv = Some r -> Bunch_key r = Some (fst kv).
Proof.
  unfold setitem_record. destruct (decide _); [|discriminate].
  by intros [= <-].
Qed.

(** The records of the [setitem] brackets over the entries of [m], opened
    on the contents [d]: one for each entry whose value [d] does not
    hold. *)
Lemma elem_of_setitem_records (d m : dict) (e : record) :
  e ∈ omap (setitem_record d) (map_to_list m) <->
  exists k v, m !! k = Some v /\ d !! k <> Some v
              /\ e = Bunch_key_old_new k (d !! k) v.
Proof.
  rewrite list_elem_of_omap. split.
  - intros ([k v] & Hkv%elem_of_map_to_list & He).
    unfold setitem_record in He. simpl in He.
    destruct (decide (Some v <> d !! k)) as [Hv|]; [|discriminate].
    injection He as <-. exists k, v. split; [done|]. split; [congruence|done].
  - intros (k & v & Hkv & Hv & ->). exists (k, v).
    split; [by apply elem_of_map_to_list|].
    by apply setitem_record_changed.
Qed.

Lemma NoDup_setitem_records (d m : dict) :
  NoDup (omap Bunch_key (omap (setitem_record d) (map_to_list m))).
Proof.
  apply (NoDup_omap_keys _ fst); [apply setitem_record_key|].
  apply NoDup_fst_map_to_list.
Qed.

(** [__setitem__] *)
Lemma send_setitem (h : heap) (self : loc) (d : dict) (k : K) (v : V) :
  h !! self = Some d ->
  send self (Call_setitem k v) h
  = Eventful.Returned (<[self := <[k := v]> d]> h) None
      (if decide (Some v <> d !! k) then [Bunch_key_old_new k (d !! k) v]
       else []).
Proof.
  intros Hd. unfold send, Eventful.instrumented, before_setitem, deref.
  rewrite Hd. simpl. rewrite dict_before_setitem. simpl.
  unfold original. rewrite Hd.
  unfold after_setitems, deref. rewrite lookup_insert_eq. simpl.
  unfold EventfulElements.after_setitems. simpl.
  unfold EventfulElements._after_setitem, getitem, dict_GetItem, dict_getitem.
  rewrite lookup_insert_eq. simpl.
  by destruct (decide (Some v <> d !! k)).
Qed.

(** [setdefault] *)
Lemma send_setdefault (h : heap) (self : loc) (d : dict) (k : K) (v : V) :
  h !! self = Some d ->
  send self (Call_setdefault k v) h
  = match d !! k with
    | Some w => Eventful.Returned h (Some w) []
    | None =>
        Eventful.Returned (<[self := <[k := v]> d]> h) (Some v)
          [Bunch_key_old_new k None v]
    end.
Proof.
  intros Hd. unfold send, Eventful.instrumented, before_setitem, deref.
  rewrite Hd. simpl. rewrite dict_before_setitem. simpl.
  unfold original. rewrite Hd.
  destruct (d !! k) as [w|] eqn:Hk.
  - unfold after_setitems, deref. rewrite Hd. simpl.
    unfold EventfulElements.after_setitems. simpl.
    unfold EventfulElements._after_setitem, getitem, dict_GetItem, dict_getitem.
    rewrite Hk. simpl. by destruct (decide (Some w <> Some w)).
  - unfold after_setitems, deref. rewrite lookup_insert_eq. simpl.
    unfold EventfulElements.after_setitems. simpl.
    unfold EventfulElements._after_setitem, getitem, dict_GetItem, dict_getitem.
    rewrite lookup_insert_eq. simpl.
    by destruct (decide (Some v <> None)).
Qed.

(** [__delitem__] *)
Lemma send_delitem (h : heap) (self : loc) (d : dict) (k : K) :
  h !! self = Some d ->
  send self (Call_delitem k) h
  = match d !! k with
    | Some w =>
        Eventful.Returned (<[self := delete k d]> h) None [Bunch_key_old k w]
    | None => Eventful.Raised KeyError h
    end.
Proof.
  intros Hd. unfold send, Eventful.instrumented, before_delitem, deref.
  rewrite Hd. simpl. rewrite dict_before_delitem. simpl.
  unfold original. rewrite Hd.
  destruct (d !! k) as [w|] eqn:Hk; [|done].
  unfold after_delitems, deref. by rewrite lookup_insert_eq.
Qed.

(** [pop] *)
Lemma send_pop (h : heap) (self : loc) (d : dict) (k : K) (default : option V) :
  h !! self = Some d ->
  send self (Call_pop k default) h
  = match d !! k, default with
    | Some w, _ =>
        Eventful.Returned (<[self := delete k d]> h) (Some w) [Bunch_key_old k w]
    | None, Some w => Eventful.Returned h (Some w) []
    | None, None => Eventful.Raised KeyError h
    end.
Proof.
  intros Hd. unfold send, Eventful.instrumented, before_delitem, deref.
  rewrite Hd. simpl. rewrite dict_before_delitem. simpl.
  unfold original. rewrite Hd.
  destruct (d !! k) as [w|] eqn:Hk.
  - unfold after_delitems, deref. by rewrite lookup_insert_eq.
  - destruct default as [w|]; [|done].
    unfold after_delitems, deref. by rewrite Hd.
Qed.

(** [clear] *)
Lemma send_clear (h : heap) (self : loc) (d : dict) :
  h !! self = Some d ->
  send self Call_clear h
  = Eventful.Returned (<[self := ∅]> h) None
      (delitem_record <$> map_to_list d).
Proof.
  intros Hd. unfold send, Eventful.instrumented, _before_clear, deref.
  rewrite Hd. simpl.
  unfold Eventful.abstracted. rewrite rmapM_fmap.
  rewrite (rmapM_total _ (fun kv => Some (delitem_record kv))).
  - simpl. unfold original. rewrite Hd.
    unfold after_delitems, deref. rewrite lookup_insert_eq. simpl.
    unfold EventfulElements.after_delitems.
    by rewrite omap_id_fmap, omap_Some_fmap.
  - intros [k v] Hkv%elem_of_map_to_list. rewrite dict_before_delitem.
    simpl. by rewrite Hkv.
Qed.


(** The instrumented [update] with named arguments only. *)
Lemma update_call_named (h : heap) (self : loc) (d kw : dict) :
  h !! self = Some d ->
  update_call self [] kw h
  = Eventful.Returned (<[self := kw ∪ d]> h) None
      (omap (setitem_record d) (map_to_list kw)).
Proof.
  intros Hd. unfold update_call, Eventful.instrumented, _before_update, deref.
  simpl. rewrite Hd. simpl. rewrite abstracted_setitem. simpl.
  unfold original. rewrite Hd.
  unfold after_setitems, deref. rewrite lookup_insert_eq. simpl.
  rewrite (after_abstracted_setitem d); [done|].
  intros [k v] Hkv%elem_of_map_to_list. simpl.
  unfold update_with. by apply lookup_union_Some_l.
Qed.

(** [update] with named arguments only. *)
Lemma send_update_named (h : heap) (self : loc) (d kw : dict) :
  h !! self = Some d ->
  send self (Call_update [] kw) h
  = Eventful.Returned (<[self := kw ∪ d]> h) None
      (omap (setitem_record d) (map_to_list kw)).
Proof.
  intros Hd. unfold send. by rewrite (update_call_named h self d kw Hd).
Qed.

(** The notifications of the inner call, when there is one. *)
Lemma inner_update_events_positional
    (h : heap) (self a : loc) (rest : list loc) (d kw : dict) :
  h !! self = Some d ->
  inner_update_events self (a :: rest) kw h
  = if decide (a = self) then omap (setitem_record d) (map_to_list kw)
    else [].
Proof.
  intros Hd. unfold inner_update_events.
  destruct (decide (a = self)); [|done].
  by rewrite (update_call_named h self d kw Hd).
Qed.

(** Every entry of the merged argument is in the container after the
    wrapped [update]. *)
Lemma update_with_lookup (kw pos d1 : dict) (k : K) (v : V) :
  (kw ∪ pos) !! k = Some v ->
  update_with kw (update_with (kw ∪ pos) d1) !! k = Some v.
Proof.
  intros Hm. unfold update_with.
  destruct (kw !! k) as [w|] eqn:Hkw.
  - rewrite (lookup_union_Some_l _ _ _ _ Hkw) in Hm.
    rewrite <- Hm. by apply lookup_union_Some_l.
  - rewrite lookup_union_r by done. by apply lookup_union_Some_l.
Qed.

(** The instrumented [update] with one positional argument, a dict at
    [a]: [d1] is what the container holds once the hook has merged the
    named arguments into the object at [a] (its contents before the call
    unless [a] is the container itself). *)
Lemma update_call_positional (h : heap) (self a : loc) (pos d1 kw : dict) :
  h !! a = Some pos ->
  <[a := kw ∪ pos]> h !! self = Some d1 ->
  update_call self [a] kw h
  = Eventful.Returned
      (<[self := update_with kw (update_with (kw ∪ pos) d1)]>
         (<[a := kw ∪ pos]> h))
      None
      (omap (setitem_record d1) (map_to_list (kw ∪ pos))).
Proof.
  intros Ha Hd1.
  unfold update_call, Eventful.instrumented, _before_update, deref.
  rewrite Ha. simpl. unfold update_with at 1 2 3. rewrite Hd1. simpl.
  rewrite abstracted_setitem. simpl.
  unfold original. rewrite Hd1, lookup_insert_eq.
  unfold after_setitems, deref. rewrite lookup_insert_eq. simpl.
  rewrite (after_abstracted_setitem d1); [done|].
  intros [k v] Hkv%elem_of_map_to_list. simpl.
  by apply update_with_lookup.
Qed.

(** [update] with one positional argument: the notifications of the
    inner call, if the argument is the container, and then the records of
    the hook's brackets. *)
Lemma send_update_positional
    (h : heap) (self a : loc) (pos d d1 kw : dict) :
  h !! self = Some d ->
  h !! a = Some pos ->
  <[a := kw ∪ pos]> h !! self = Some d1 ->
  send self (Call_update [a] kw) h
  = Eventful.Returned
      (<[self := update_with kw (update_with (kw ∪ pos) d1)]>
         (<[a := kw ∪ pos]> h))
      None
      ((if decide (a = self) then omap (setitem_record d) (map_to_list kw)
        else [])
       ++ omap (setitem_record d1) (map_to_list (kw ∪ pos))).
Proof.
  intros Hd Ha Hd1. unfold send.
  rewrite (update_call_positional h self a pos d1 kw Ha Hd1).
  by rewrite (inner_update_events_positional h self a [] d kw Hd).
Qed.

(** Merging twice is merging once. *)
Lemma update_with_merged (kw d : dict) :
  update_with kw (update_with (kw ∪ d) (kw ∪ d))
  = update_with kw (update_with (kw ∪ d) d).
Proof.
  unfold update_with. apply map_eq. intros k. rewrite !lookup_union.
  by destruct (kw !! k), (d !! k).
Qed.

(** [update] with one positional argument, whichever object it is: the
    final heap, and the records, one for each entry of the merged
    argument whose value the container did not hold. *)
Lemma send_update_positional_any (h : heap) (self a : loc) (d pos kw : dict) :
  h !! self = Some d -> h !! a = Some pos ->
  exists evs,
    send self (Call_update [a] kw) h
    = Eventful.Returned
        (<[self := update_with kw (update_with (kw ∪ pos) d)]>
           (<[a := kw ∪ pos]> h)) None evs
    /\ NoDup (omap Bunch_key evs)
    /\ (forall e, e ∈ evs <->
          exists k v, (kw ∪ pos) !! k = Some v /\ d !! k <> Some v
                      /\ e = Bunch_key_old_new k (d !! k) v).
Proof.
  intros Hd Ha. destruct (decide (a = self)) as [->|Hne].
  - assert (pos = d) as -> by congruence.
    exists (omap (setitem_record d) (map_to_list kw)).
    rewrite (send_update_positional h self self d d (kw ∪ d) kw Hd Hd)
      by (by rewrite lookup_insert_eq).
    rewrite decide_True by done.
    rewrite (omap_all_None (setitem_record (kw ∪ d))).
    2:{ intros [k v] Hkv%elem_of_map_to_list. by apply setitem_record_same. }
    rewrite app_nil_r, update_with_merged.
    split; [done|]. split; [apply NoDup_setitem_records|].
    intros e. rewrite elem_of_setitem_records. split.
    + intros (k & v & Hk & Hv & ->). exists k, v.
      split; [by apply lookup_union_Some_l|done].
    + intros (k & v & Hk & Hv & ->). exists k, v. split; [|done].
      apply lookup_union_Some_raw in Hk as [Hk|[_ Hk]]; [done|congruence].
  - exists (omap (setitem_record d) (map_to_list (kw ∪ pos))).
    rewrite (send_update_positional h self a pos d d kw Hd Ha)
      by (by rewrite lookup_insert_ne).
    rewrite decide_False by done. simpl.
    split; [done|]. split; [apply NoDup_setitem_records|].
    apply elem_of_setitem_records.
Qed.

(** A list of records with distinct keys whose only member is [x]. *)
Lemma records_singleton (evs : list record) (x : record) :
  NoDup (omap Bunch_key evs) ->
  (forall e, e ∈ evs <-> e = x) ->
  is_Some (Bunch_key x) ->
  evs = [x].
Proof.
  intros Hnodup Hmem [key Hkey].
  destruct evs as [|e evs].
  - exfalso. eapply elem_of_nil. by apply Hmem.
  - assert (e = x) as -> by (apply Hmem; left).
    f_equal. destruct evs as [|e' evs]; [done|].
    assert (e' = x) as -> by (apply Hmem; right; left).
    exfalso. simpl in Hnodup. rewrite Hkey in Hnodup. simpl in Hnodup.
    apply NoDup_cons in Hnodup as [Hnotin _]. apply Hnotin. left.
Qed.

(** Merging named arguments that the argument already holds changes
    nothing, and only then. *)
Lemma update_with_unchanged (kw pos : dict) :
  update_with kw pos = pos <-> kw ⊆ pos.
Proof.
  unfold update_with. split.
  - intros <-. apply map_union_subseteq_l.
  - apply map_subseteq_union.
Qed.

(** The hook of [update] given a positional argument: the object at [a]
    holds the merged entries afterwards, and the brackets are those of the
    merged entries. *)
Lemma _before_update_positional (h : heap) (self a : loc) (rest : list loc)
    (pos d1 kw : dict) :
  h !! a = Some pos ->
  <[a := kw ∪ pos]> h !! self = Some d1 ->
  _before_update self (a :: rest) kw h
  = Ok (<[a := kw ∪ pos]> h,
        (fun kv => (fst kv, d1 !! fst kv)) <$> map_to_list (kw ∪ pos)).
Proof.
  intros Ha Hd1. unfold _before_update, deref.
  rewrite Ha. simpl. unfold update_with. rewrite Hd1. simpl.
  by rewrite abstracted_setitem.
Qed.

(** No call emits two records for one key, and every record is for a key
    whose value the call changed. *)
Lemma send_records_distinct_changed (h : heap) (self : loc) (d : dict)
    (c : call) (h' : heap) (r : option V) (evs : list record) :
  h !! self = Some d ->
  send self c h = Eventful.Returned h' r evs ->
  exists d', h' !! self = Some d'
    /\ NoDup (omap Bunch_key evs)
    /\ forall e, e ∈ evs ->
         exists key, Bunch_key e = Some key /\ d !! key <> d' !! key.
Proof.
  intros Hd. destruct c as [k v|k v|k|k default|args kw|].
  - rewrite (send_setitem h self d k v Hd). intros [= <- <- <-].
    exists (<[k := v]> d). rewrite lookup_insert_eq. split; [done|].
    destruct (decide (Some v <> d !! k)) as [Hne|_]; simpl.
    + split; [apply NoDup_singleton|].
      intros e ->%list_elem_of_singleton. exists k. split; [done|].
      rewrite lookup_insert_eq. congruence.
    + split; [constructor|]. by intros e ?%elem_of_nil.
  - rewrite (send_setdefault h self d k v Hd).
    destruct (d !! k) as [w|] eqn:Hk; intros [= <- <- <-].
    + exists d. split; [done|]. split; [constructor|].
      by intros e ?%elem_of_nil.
    + exists (<[k := v]> d). rewrite lookup_insert_eq. split; [done|].
      split; [apply NoDup_singleton|].
      intros e ->%list_elem_of_singleton. exists k. split; [done|].
      rewrite lookup_insert_eq. congruence.
  - rewrite (send_delitem h self d k Hd).
    destruct (d !! k) as [w|] eqn:Hk; [|discriminate]. intros [= <- <- <-].
    exists (delete k d). rewrite lookup_insert_eq. split; [done|].
    split; [apply NoDup_singleton|].
    intros e ->%list_elem_of_singleton. exists k. split; [done|].
    rewrite lookup_delete_eq. congruence.
  - rewrite (send_pop h self d k default Hd).
    destruct (d !! k) as [w|] eqn:Hk.
    + intros [= <- <- <-].
      exists (delete k d). rewrite lookup_insert_eq. split; [done|].
      split; [apply NoDup_singleton|].
      intros e ->%list_elem_of_singleton. exists k. split; [done|].
      rewrite lookup_delete_eq. congruence.
    + destruct default as [w|]; [|discriminate]. intros [= <- <- <-].
      exists d. split; [done|]. split; [constructor|].
      by intros e ?%elem_of_nil.
  - destruct args as [|a [|b rest]].
    + rewrite (send_update_named h self d kw Hd). intros [= <- <- <-].
      exists (kw ∪ d). rewrite lookup_insert_eq. split; [done|]. split.
      * apply (NoDup_omap_keys _ fst); [apply setitem_record_key|].
        apply NoDup_fst_map_to_list.
      * intros e (kv & Hkv & He)%list_elem_of_omap.
        exists (fst kv). split; [by eapply setitem_record_key|].
        destruct kv as [k v]. apply elem_of_map_to_list in Hkv. simpl.
        rewrite (lookup_union_Some_l _ _ _ _ Hkv).
        unfold setitem_record in He. simpl in He.
        destruct (decide (Some v <> d !! k)); [congruence|discriminate].
    + destruct (h !! a) as [pos|] eqn:Ha.
      * destruct (send_update_positional_any h self a d pos kw Hd Ha)
          as (evs0 & Hsend & Hnodup & Hmem).
        rewrite Hsend. intros [= <- <- <-].
        eexists. rewrite lookup_insert_eq. split; [done|].
        split; [exact Hnodup|].
        intros e (k & v & Hk & Hv & ->)%Hmem.
        exists k. split; [done|].
        rewrite (update_with_lookup kw pos d k v Hk). congruence.
      * unfold send, update_call, Eventful.instrumented, _before_update, deref.
        rewrite Ha. discriminate.
    + unfold send, update_call, Eventful.instrumented.
      destruct (_before_update self (a :: b :: rest) kw h) as [[h1 st]|];
        [|discriminate].
      unfold original. destruct (h1 !! self); discriminate.
  - rewrite (send_clear h self d Hd). intros [= <- <- <-].
    exists ∅. rewrite lookup_insert_eq. split; [done|]. split.
    + rewrite <- omap_Some_fmap.
      apply (NoDup_omap_keys _ fst); [by intros kv r [= <-]|].
      apply NoDup_fst_map_to_list.
    + intros e (kv & -> & Hkv)%list_elem_of_fmap.
      exists (fst kv). split; [done|].
      destruct kv as [k v]. apply elem_of_map_to_list in Hkv. simpl.
      rewrite Hkv, lookup_empty. done.
Qed.


(** C4: on an eventful mapping, assigning a key its current value emits
    no notification; assigning a new key or a changed value emits exactly
    one, with the key, the value held before ([None], the absent sentinel,
    for a missing key) as [old] and the value held afterwards as [new];
    and no instrumented call emits two records for one key or a record
    for a key it did not change. *)
Theorem setitem_emits_at_most_one_notification
    (h : heap) (self : loc) (d : dict) (k : K) (v : V) :
  h !! self = Some d ->
  (d !! k = Some v ->
     send self (Call_setitem k v) h
     = Eventful.Returned (<[self := <[k := v]> d]> h) None [])
  /\ (d !! k <> Some v ->
     send self (Call_setitem k v) h
     = Eventful.Returned (<[self := <[k := v]> d]> h) None
         [Bunch_key_old_new k (d !! k) v]
     /\ <[k := v]> d !! k = Some v)
  /\ (forall c h' r evs,
     send self c h = Eventful.Returned h' r evs ->
     exists d', h' !! self = Some d'
       /\ NoDup (omap Bunch_key evs)
       /\ forall e, e ∈ evs ->
            exists key, Bunch_key e = Some key /\ d !! key <> d' !! key).
Proof.
  intros Hd. split; [|split].
  - intros Hk. rewrite (send_setitem h self d k v Hd).
    destruct (decide (Some v <> d !! k)); [congruence|done].
  - intros Hk. rewrite (send_setitem h self d k v Hd), lookup_insert_eq.
    destruct (decide (Some v <> d !! k)) as [|Hn]; [done|].
    exfalso. apply Hn. congruence.
  - intros c h' r evs. by apply send_records_distinct_changed.
Qed.

(** C5: [update] with a positional mapping and named arguments works on
    the union of their keys, a named argument winning where both have the
    key, and emits one [setitem] record for each key whose value differs
    from the one the container held, and for no other;
    [update({a: 1, b: 2})] on a mapping that holds 1 at [a] emits the one
    record for [b]. *)
Theorem update_one_record_per_changed_key
    (h : heap) (self a : loc) (d pos kw : dict) :
  h !! self = Some d -> h !! a = Some pos ->
  exists evs,
    send self (Call_update [a] kw) h
    = Eventful.Returned
        (<[self := update_with kw (update_with (kw ∪ pos) d)]>
           (<[a := kw ∪ pos]> h)) None evs
    /\ dom (kw ∪ pos) = dom pos ∪ dom kw
    /\ (forall k v, kw !! k = Some v -> (kw ∪ pos) !! k = Some v)
    /\ (forall k, kw !! k = None -> (kw ∪ pos) !! k = pos !! k)
    /\ NoDup (omap Bunch_key evs)
    /\ (forall e, e ∈ evs <->
          exists k v, (kw ∪ pos) !! k = Some v /\ d !! k <> Some v
                      /\ e = Bunch_key_old_new k (d !! k) v)
    /\ (forall ka kb va vb,
          ka <> kb -> pos = {[ka := va; kb := vb]} -> kw = ∅ ->
          d !! ka = Some va -> d !! kb <> Some vb ->
          evs = [Bunch_key_old_new kb (d !! kb) vb])
    /\ (exists evs0,
          send self (Call_update [] kw) h
          = Eventful.Returned (<[self := update_with kw d]> h) None evs0
          /\ NoDup (omap Bunch_key evs0)
          /\ forall e, e ∈ evs0 <->
                exists k v, kw !! k = Some v /\ d !! k <> Some v
                            /\ e = Bunch_key_old_new k (d !! k) v).
Proof.
  intros Hd Ha.
  destruct (send_update_positional_any h self a d pos kw Hd Ha)
    as (evs & Hsend & Hnodup & Hmem).
  exists evs. split; [exact Hsend|].
  split; [by rewrite dom_union_L, (comm_L (∪))|].
  split; [intros k v Hk; by apply lookup_union_Some_l|].
  split; [intros k Hk; by apply lookup_union_r|].
  split; [exact Hnodup|]. split; [exact Hmem|].
  split.
  { intros ka kb va vb Hab -> -> Hda Hdb.
    apply records_singleton; [exact Hnodup| |by eexists].
    intros e. rewrite Hmem, (left_id_L ∅ (∪)). split.
    - intros (k & v & Hk & Hv & ->).
      apply lookup_insert_Some in Hk as [[<- <-]|[Hka Hk]]; [done|].
      apply lookup_singleton_Some in Hk as [<- <-]. done.
    - intros ->. exists kb, vb. split; [|done].
      rewrite lookup_insert_ne by done. by rewrite lookup_singleton_eq. }
  eexists. split; [by apply send_update_named|].
  split; [apply NoDup_setitem_records|apply elem_of_setitem_records].
Qed.

(** C10 (amended): given a positional mapping and named arguments, the
    hook of [update] merges the named arguments into the caller's object
    in place, a named argument winning, before it iterates: its brackets
    are those of the merged entries, and the object holds the merged
    entries after the hook and after the call.  The object differs from
    what the caller passed exactly when some named argument was missing
    from it or bound to another value. *)
Theorem _before_update_merges_into_argument
    (h : heap) (self a : loc) (d pos kw : dict) :
  h !! self = Some d -> h !! a = Some pos ->
  exists st,
    _before_update self [a] kw h = Ok (<[a := update_with kw pos]> h, st)
    /\ fst <$> st = fst <$> map_to_list (update_with kw pos)
    /\ (exists h' evs,
          send self (Call_update [a] kw) h = Eventful.Returned h' None evs
          /\ h' !! a = Some (update_with kw pos))
    /\ (update_with kw pos = pos <-> kw ⊆ pos)
    /\ (update_with kw pos <> pos <->
          exists k v, kw !! k = Some v /\ pos !! k <> Some v).
Proof.
  intros Hd Ha.
  assert (exists d1, <[a := kw ∪ pos]> h !! self = Some d1
            /\ (a = self -> d1 = kw ∪ pos)) as (d1 & Hd1 & Heq).
  { destruct (decide (a = self)) as [->|Hne].
    - exists (kw ∪ pos). by rewrite lookup_insert_eq.
    - exists d. by rewrite lookup_insert_ne. }
  eexists. split; [by apply (_before_update_positional h self a [] pos d1)|].
  split.
  { rewrite <- list_fmap_compose. by apply list_fmap_ext. }
  split.
  { eexists _, _. split; [by apply (send_update_positional h self a pos d d1)|].
    destruct (decide (a = self)) as [Has|Has].
    - subst a. rewrite lookup_insert_eq, (Heq eq_refl). f_equal.
      unfold update_with. apply map_eq. intros k.
      destruct ((kw ∪ pos) !! k) as [v|] eqn:Hk.
      + by apply (update_with_lookup kw pos (kw ∪ pos) k v).
      + apply lookup_union_None in Hk as [Hkw Hpos].
        by rewrite !lookup_union_None.
    - rewrite lookup_insert_ne by done. by rewrite lookup_insert_eq. }
  split; [apply update_with_unchanged|].
  rewrite update_with_unchanged, map_subseteq_spec. split.
  - intros Hnot.
    destruct (decide (map_Forall (fun k v => pos !! k = Some v) kw))
      as [Hall|Hex].
    + exfalso. apply Hnot. intros k v Hk. by apply Hall.
    + apply map_not_Forall in Hex as (k & v & Hk & Hv); [|apply _].
      by exists k, v.
  - intros (k & v & Hk & Hv) Hall. apply Hv. by apply Hall.
Qed.

End DictProperties.

(** Assigning 1 to [a] again is silent; assigning 5 notifies once. *)
Lemma setitem_emits_at_most_one_notification_witness :
  EventfulDict.send 1%positive (EventfulDict.Call_setitem "a"%string 1%Z)
    sample_heap
  = Eventful.Returned
      (<[1%positive := <["a"%string := 1%Z]> {[ "a"%string := 1%Z ]}]>
         sample_heap) None []
  /\ EventfulDict.send 1%positive (EventfulDict.Call_setitem "a"%string 5%Z)
       sample_heap
     = Eventful.Returned
         (<[1%positive := <["a"%string := 5%Z]> {[ "a"%string := 1%Z ]}]>
            sample_heap) None
         [Bunch_key_old_new "a"%string (Some 1%Z) 5%Z].
Proof.
  assert (sample_heap !! 1%positive = Some {[ "a"%string := 1%Z ]}) as Hd
    by reflexivity.
  destruct (setitem_emits_at_most_one_notification sample_heap 1%positive
              {[ "a"%string := 1%Z ]} "a"%string 1%Z Hd) as (Hsame & _ & _).
  destruct (setitem_emits_at_most_one_notification sample_heap 1%positive
              {[ "a"%string := 1%Z ]} "a"%string 5%Z Hd) as (_ & Hchanged & _).
  split.
  - apply Hsame. reflexivity.
  - destruct Hchanged as [Hsend _]; [vm_compute; discriminate|]. exact Hsend.
Defined.

(** [update({"a": 1, "b": 2})] on [{"a": 1}] emits the record for [b]. *)
Lemma update_one_record_per_changed_key_witness :
  exists h',
    EventfulDict.send 1%positive (EventfulDict.Call_update [3%positive] ∅)
      sample_heap
    = Eventful.Returned h' None [Bunch_key_old_new "b"%string None 2%Z].
Proof.
  destruct (update_one_record_per_changed_key sample_heap 1%positive
              3%positive {[ "a"%string := 1%Z ]}
              {[ "a"%string := 1%Z; "b"%string := 2%Z ]} ∅)
    as (evs & Hsend & _ & _ & _ & _ & _ & Hone & _);
    [reflexivity | reflexivity |].
  rewrite (Hone "a"%string "b"%string 1%Z 2%Z) in Hsend;
    [ | discriminate | reflexivity | reflexivity | reflexivity
      | vm_compute; discriminate ].
  eexists. exact Hsend.
Defined.

(** [update({"a": 1}, b=2)]: the caller's dict holds [b] afterwards. *)
Lemma _before_update_merges_into_argument_witness :
  exists st,
    EventfulDict._before_update 1%positive [2%positive] {[ "b"%string := 2%Z ]}
      sample_heap
    = Ok (<[2%positive :=
              EventfulDict.update_with {[ "b"%string := 2%Z ]}
                {[ "a"%string := 1%Z ]}]> sample_heap, st).
Proof.
  destruct (_before_update_merges_into_argument sample_heap 1%positive
              2%positive {[ "a"%string := 1%Z ]} {[ "a"%string := 1%Z ]}
              {[ "b"%string := 2%Z ]})
    as (st & Hbefore & _); [reflexivity | reflexivity |].
  exists st. exact Hbefore.
Defined.

(** C10 (as stated, refuted): [update({"a": 1}, a=1)] is given a
    positional mapping and a named argument, and the object the caller
    passed holds after the hook, and after the call, what it held
    before. *)
Lemma update_argument_unchanged_counterexample :
  (exists st,
     EventfulDict._before_update 1%positive [2%positive] {[ "a"%string := 1%Z ]}
       sample_heap = Ok (sample_heap, st))
  /\ (exists h' evs,
     EventfulDict.send 1%positive
       (EventfulDict.Call_update [2%positive] {[ "a"%string := 1%Z ]})
       sample_heap = Eventful.Returned h' None evs
     /\ h' !! 2%positive = sample_heap !! 2%positive).
Proof.
  split.
  - eexists. vm_compute. reflexivity.
  - eexists _, _. split; vm_compute; reflexivity.
Qed.

(** ** The date/time wire codec *)

Section DatetimeProperties.
Import Datetime.
Local Open Scope Z_scope.

(** Decoding the encoding, under floor division: the constructor is
    called with the fields of the value, the month moved down and up
    again, and the microseconds divided and multiplied by 1000. *)
Lemma from_json_to_json_floor (d : datetime) :
  datetime_from_json (datetime_to_json FloorDivision (Some d))
  = (pydt <<- dt_datetime (Int (year d)) (Int (month d - 1 + 1)) (Int (day d))
                (Int (hour d)) (Int (minute d)) (Int (second d))
                (Int (microsecond d / 1000 * 1000)) ;;
     Ok (Some pydt)).
Proof.
  unfold datetime_from_json, datetime_to_json.
  assert (forall js key n, js !! key = Some n -> item js key = Ok n) as Hitem.
  { intros js key n Hn. unfold item. by rewrite Hn. }
  rewrite (Hitem _ "year"%string (Int (year d))) by (vm_compute; reflexivity).
  rewrite (Hitem _ "month"%string (Int (month d - 1)))
    by (vm_compute; reflexivity).
  rewrite (Hitem _ "date"%string (Int (day d))) by (vm_compute; reflexivity).
  rewrite (Hitem _ "hours"%string (Int (hour d))) by (vm_compute; reflexivity).
  rewrite (Hitem _ "minutes"%string (Int (minute d)))
    by (vm_compute; reflexivity).
  rewrite (Hitem _ "seconds"%string (Int (second d)))
    by (vm_compute; reflexivity).
  rewrite (Hitem _ "milliseconds"%string (Int (microsecond d / 1000)))
    by (vm_compute; reflexivity).
  reflexivity.
Qed.

(** Under true division the milliseconds entry is a float, and so is the
    microsecond argument of the constructor, which refuses it: decoding
    the encoding of any value raises [TypeError]. *)
Theorem from_json_to_json_true (d : datetime) :
  datetime_from_json (datetime_to_json TrueDivision (Some d)) = Raise TypeError.
Proof.
  unfold datetime_from_json, datetime_to_json.
  assert (forall js key n, js !! key = Some n -> item js key = Ok n) as Hitem.
  { intros js key n Hn. unfold item. by rewrite Hn. }
  rewrite (Hitem _ "year"%string (Int (year d))) by (vm_compute; reflexivity).
  rewrite (Hitem _ "month"%string (Int (month d - 1)))
    by (vm_compute; reflexivity).
  rewrite (Hitem _ "date"%string (Int (day d))) by (vm_compute; reflexivity).
  rewrite (Hitem _ "hours"%string (Int (hour d))) by (vm_compute; reflexivity).
  rewrite (Hitem _ "minutes"%string (Int (minute d)))
    by (vm_compute; reflexivity).
  rewrite (Hitem _ "seconds"%string (Int (second d)))
    by (vm_compute; reflexivity).
  rewrite (Hitem _ "milliseconds"%string
             (py_div TrueDivision (Int (microsecond d)) 1000))
    by (vm_compute; reflexivity).
  reflexivity.
Qed.

Lemma in_range_spec (lo hi z : Z) :
  in_range lo hi z = true <-> lo <= z <= hi.
Proof. unfold in_range. rewrite andb_true_iff, !Z.leb_le. done. Qed.

(** Whole milliseconds of a microsecond field in range are in range. *)
Lemma fields_ok_truncated (y mo d h mi s us : Z) :
  fields_ok y mo d h mi s us = true ->
  fields_ok y mo d h mi s (us / 1000 * 1000) = true.
Proof.
  unfold fields_ok. rewrite !andb_true_iff, !in_range_spec.
  intros (Hrest & Hus). split; [done|].
  pose proof (Z.mul_div_le us 1000 ltac:(lia)).
  pose proof (Z.div_pos us 1000 ltac:(lia) ltac:(lia)). lia.
Qed.

(** C3 (amended): both directions map [None] to [None].  Under floor
    division, decoding the encoding of a valid value gives the value with
    its microseconds cut to whole milliseconds and without [tzinfo]; it
    gives the value back when the value is naive and its microseconds are
    a whole number of milliseconds. *)
Theorem datetime_wire_round_trip :
  (forall mode, datetime_to_json mode None = None)
  /\ datetime_from_json None = Ok None
  /\ (forall d, valid d = true ->
        datetime_from_json (datetime_to_json FloorDivision (Some d))
        = Ok (Some (wire_image d)))
  /\ (forall d, valid d = true -> tzinfo d = None ->
        microsecond d mod 1000 = 0 ->
        datetime_from_json (datetime_to_json FloorDivision (Some d))
        = Ok (Some d)).
Proof.
  split; [done|]. split; [done|].
  assert (forall d, valid d = true ->
            datetime_from_json (datetime_to_json FloorDivision (Some d))
            = Ok (Some (wire_image d))) as Himage.
  { intros d Hv. rewrite from_json_to_json_floor. unfold dt_datetime. simpl.
    rewrite Z.sub_add. unfold valid in Hv.
    by rewrite (fields_ok_truncated _ _ _ _ _ _ _ Hv). }
  split; [exact Himage|].
  intros d Hv Htz Hms. rewrite (Himage d Hv). do 2 f_equal.
  destruct d as [y mo dy hh mi ss us tz]. unfold wire_image. simpl in *.
  subst tz. f_equal.
  rewrite Z.mul_comm. symmetry. by apply Z.div_exact.
Qed.

End DatetimeProperties.

(** 2000-01-02 03:04:05.002000 comes back as it was. *)
Lemma datetime_wire_round_trip_witness :
  Datetime.datetime_from_json
    (Datetime.datetime_to_json Datetime.FloorDivision (Some sample_datetime_ms))
  = Ok (Some sample_datetime_ms).
Proof.
  apply datetime_wire_round_trip; reflexivity.
Defined.

(** C3 (as stated, refuted): 2000-01-02 03:04:05.001500 is a valid naive
    value, and decoding its encoding does not give it back, whichever
    division the interpreter has: floor division loses the 500
    microseconds, true division makes the constructor raise. *)
Lemma datetime_round_trip_counterexample :
  Datetime.valid sample_datetime_us = true
  /\ Datetime.tzinfo sample_datetime_us = None
  /\ Datetime.datetime_from_json
       (Datetime.datetime_to_json Datetime.FloorDivision (Some sample_datetime_us))
     = Ok (Some (Datetime.mk_datetime 2000 1 2 3 4 5 1000 None))
  /\ Datetime.datetime_from_json
       (Datetime.datetime_to_json Datetime.TrueDivision (Some sample_datetime_us))
     = Raise TypeError
  /\ forall mode,
       Datetime.datetime_from_json
         (Datetime.datetime_to_json mode (Some sample_datetime_us))
       <> Ok (Some sample_datetime_us).
Proof.
  split; [reflexivity|]. split; [reflexivity|].
  split; [vm_compute; reflexivity|]. split; [vm_compute; reflexivity|].
  intros [|]; vm_compute; discriminate.
Qed.

(** ** Regular expressions *)

Section ReProperties.
Import Re.

Lemma is_Some_or_else {A} (x y : option A) :
  is_Some (match x with Some m => Some m | None => y end)
  <-> is_Some x \/ is_Some y.
Proof.
  destruct x as [m|]; split.
  - intros _. left. by exists m.
  - intros _. by exists m.
  - intros Hy. by right.
  - intros [[m Hm]|Hy]; [discriminate|done].
Qed.

Lemma many1_success {R R'} (p : ascii -> bool) (s : string)
    (k : string -> option R) (k' : string -> option R') :
  (forall s1, is_Some (k s1) <-> is_Some (k' s1)) ->
  is_Some (many1 p s k) <-> is_Some (many1 p s k').
Proof.
  intros Hk. induction s as [|c s IH]; simpl; [by rewrite !is_Some_alt|].
  destruct (p c); [|by rewrite !is_Some_alt].
  rewrite !is_Some_or_else, IH, Hk. done.
Qed.

(** Whether a pattern matches does not depend on its capturing
    parentheses, nor on the groups set before. *)
Lemma exec_erase (ignorecase : bool) (r : regex) (whole : nat) :
  forall (s : string) (g g' : gmap nat string)
         (k k' : string -> gmap nat string -> option (gmap nat string)),
    (forall s1 g1 g1', is_Some (k s1 g1) <-> is_Some (k' s1 g1')) ->
    is_Some (exec ignorecase r whole s g k)
    <-> is_Some (exec ignorecase (erase r) whole s g' k').
Proof.
  induction r as [|items| |r1 IH1 r2 IH2|r1 IH1|items|n r1 IH1| |];
    intros s g g' k k' Hk; simpl.
  - apply Hk.
  - destruct s as [|c s]; [by rewrite !is_Some_alt|].
    destruct (in_class ignorecase items c); [apply Hk|by rewrite !is_Some_alt].
  - destruct s as [|c s]; [by rewrite !is_Some_alt|].
    destruct (bool_decide (c = newline)); [by rewrite !is_Some_alt|apply Hk].
  - apply IH1. intros s1 g1 g1'. by apply IH2.
  - rewrite !is_Some_or_else, (IH1 s g g' k k' Hk), (Hk s g g'). done.
  - apply many1_success. intros s1. apply Hk.
  - apply IH1. intros s1 g1 g1'. apply Hk.
  - destruct (String.length s =? whole)%nat; [apply Hk|by rewrite !is_Some_alt].
  - destruct (at_end s); [apply Hk|by rewrite !is_Some_alt].
Qed.

Lemma match_erase (ignorecase : bool) (r : regex) (s : string) :
  is_Some (match_ ignorecase r s) <-> is_Some (match_ ignorecase (erase r) s).
Proof. unfold match_. by apply exec_erase. Qed.

(** [^] at the front of a pattern is no constraint on [match]. *)
Lemma match_Bol (ignorecase : bool) (r : regex) (s : string) :
  match_ ignorecase (Cat Bol r) s = match_ ignorecase r s.
Proof. unfold match_. simpl. by rewrite Nat.eqb_refl. Qed.

End ReProperties.

(** ** Color *)

Section ColorProperties.
Import Color.

Lemma in_class_hex_digit (c : ascii) :
  Re.in_class false hex_digit c = is_hex c.
Proof.
  unfold Re.in_class, hex_digit, is_hex. simpl.
  by destruct (Re.between "a" "f" c), (Re.between "A" "F" c),
    (Re.between "0" "9" c).
Qed.

Lemma in_class_spec_hex_digit (c : ascii) :
  Re.in_class false spec_hex_digit c = is_hex c.
Proof.
  unfold Re.in_class, spec_hex_digit, is_hex. simpl.
  by destruct (Re.between "a" "f" c), (Re.between "A" "F" c),
    (Re.between "0" "9" c).
Qed.

Lemma in_class_hash (c : ascii) :
  Re.in_class false [Re.Lit "#"] c = bool_decide (c = "#"%char).
Proof.
  unfold Re.in_class. simpl. rewrite orb_false_r.
  apply bool_decide_ext. split; congruence.
Qed.

Lemma is_Some_if {A} (b : bool) (x : A) :
  is_Some (if b then Some x else None) <-> b = true.
Proof.
  destruct b; split; [done | by eexists | by intros [? ?] | discriminate].
Qed.

(** Settles an equivalence between a match that has run to [Some] or
    [None] and a truth value. *)
Ltac settle :=
  simpl;
  first [ by (split; [reflexivity | intros _; by eexists])
        | by (split; [intros [? ?]; discriminate | discriminate]) ].

Ltac split_cases :=
  repeat match goal with
    | |- context [if ?b then _ else _] => destruct b
    end.

(** The strings a pattern of this form accepts. *)
Lemma hex_pattern_shape (hex : list Re.class_item) (s : string) :
  (forall c, Re.in_class false hex c = is_hex c) ->
  is_Some (Re.match_ false
             (Re.Cat (Re.Class [Re.Lit "#"])
                (Re.Cat (Re.times 3 (Re.Class hex))
                   (Re.Cat (Re.Opt (Re.times 3 (Re.Class hex))) Re.Eol))) s)
  <-> hex_shape s = true.
Proof.
  intros Hhex. unfold Re.match_.
  destruct s as [|c0 [|c1 [|c2 [|c3 rest]]]]; cbn [Re.exec Re.times hex_shape];
    rewrite ?in_class_hash, ?Hhex.
  1-4: split_cases; settle.
  destruct (bool_decide (c0 = "#"%char)); [|settle].
  destruct (is_hex c1); [|settle].
  destruct (is_hex c2); [|settle].
  destruct (is_hex c3); [|settle].
  rewrite is_Some_or_else, is_Some_if. cbn [andb]. rewrite orb_true_iff.
  apply or_iff_compat_r.
  destruct rest as [|c4 [|c5 [|c6 rest']]]; rewrite ?Hhex.
  1-3: split_cases; settle.
  destruct (is_hex c4); [|settle].
  destruct (is_hex c5); [|settle].
  destruct (is_hex c6); [|settle].
  cbn [andb]. apply is_Some_if.
Qed.

Lemma _color_re_shape (s : string) :
  is_Some (Re.match_ false _color_re s) <-> hex_shape s = true.
Proof. apply hex_pattern_shape, in_class_hex_digit. Qed.

Lemma spec_color_pattern_shape (s : string) :
  is_Some (Re.match_ false spec_color_pattern s) <-> hex_shape s = true.
Proof.
  rewrite match_erase. unfold spec_color_pattern. cbn [Re.erase Re.times].
  rewrite match_Bol. apply hex_pattern_shape, in_class_spec_hex_digit.
Qed.

(** C2: [Color.validate(s)] returns [s] exactly when [s.lower()] is one
    of the color names or [s] matches
    [^#[0-9a-fA-F]{3}([0-9a-fA-F]{3})?$] (with the [$] of [re], which
    also holds before a final newline); otherwise it raises the trait
    error that carries [s]. *)
Theorem Color_validate_iff (s : string) :
  (validate s = Ok s <->
     Re.lower s ∈ _color_names
     \/ is_Some (Re.match_ false spec_color_pattern s))
  /\ (~ (Re.lower s ∈ _color_names
         \/ is_Some (Re.match_ false spec_color_pattern s)) ->
      validate s = Raise (TraitError s))
  /\ (validate s = Ok s \/ validate s = Raise (TraitError s)).
Proof.
  rewrite spec_color_pattern_shape, <- _color_re_shape.
  unfold validate.
  destruct (bool_decide (Re.lower s ∈ _color_names)) eqn:Hname;
    [apply bool_decide_eq_true in Hname | apply bool_decide_eq_false in Hname].
  - simpl. split; [by split; [left|]|]. split; [|by left].
    intros Hnot. exfalso. apply Hnot. by left.
  - simpl.
    destruct (bool_decide (is_Some (Re.match_ false _color_re s))) eqn:Hre;
      [apply bool_decide_eq_true in Hre | apply bool_decide_eq_false in Hre].
    + split; [by split; [right|]|]. split; [|by left].
      intros Hnot. exfalso. apply Hnot. by right.
    + split; [|split; [done|by right]].
      split; [discriminate|]. by intros [?|?].
Qed.

End ColorProperties.

(** [Blue] is a color name in another case, [#A80] three hexadecimal
    digits; [#12345] is neither. *)
Lemma Color_validate_iff_witness :
  Color.validate "Blue" = Ok "Blue"%string
  /\ Color.validate "#A80" = Ok "#A80"%string
  /\ Color.validate "#12345" = Raise (TraitError "#12345"%string).
Proof.
  split; [|split].
  - apply (proj1 (Color_validate_iff "Blue")). left.
    apply (bool_decide_unpack _). vm_compute. exact I.
  - apply (proj1 (Color_validate_iff "#A80")). right.
    eexists. vm_compute. reflexivity.
  - apply (proj1 (proj2 (Color_validate_iff "#12345"))).
    intros [Hname|[g Hg]].
    + assert (bool_decide (Re.lower "#12345" ∈ Color._color_names) = false)
        as Hno by (vm_compute; reflexivity).
      by apply bool_decide_eq_false in Hno.
    + vm_compute in Hg. discriminate.
Defined.

(** ** NumberFormat *)

Lemma string_app_assoc (s t u : string) :
  ((s ++ t) ++ u = s ++ t ++ u)%string.
Proof.
  induction s as [|c s IH]; [done|].
  change (String c (String.append (String.append s t) u)
          = String c (String.append s (String.append t u))).
  by rewrite IH.
Qed.

Lemma string_app_nil_r (s : string) : (s ++ EmptyString)%string = s.
Proof.
  induction s as [|c s IH]; [done|].
  change (String c (String.append s EmptyString) = String c s).
  by rewrite IH.
Qed.

Section NumberFormatProperties.
Import NumberFormat.

Lemma join_concat (sep : string) (l : list string) :
  join sep l = String.concat sep l.
Proof.
  induction l as [|s [|t l] IH]; simpl; [done..|].
  simpl in IH. by rewrite IH.
Qed.

(** A member of a list is a piece of the joined list. *)
Lemma join_contains (sep : string) (l : list string) (t : string) :
  t ∈ l -> exists before after, join sep l = (before ++ t ++ after)%string.
Proof.
  induction l as [|s l IH]; [by intros ?%elem_of_nil|].
  intros [Heq|Ht]%elem_of_cons.
  - subst s. destruct l as [|u l].
    + exists EmptyString, EmptyString. by rewrite string_app_nil_r.
    + exists EmptyString, (sep ++ join sep (u :: l))%string. done.
  - destruct (IH Ht) as (before & after & Hjoin).
    destruct l as [|u l]; [by apply elem_of_nil in Ht|].
    exists (s ++ sep ++ before)%string, after.
    change (join sep (s :: u :: l))
      with (s ++ sep ++ join sep (u :: l))%string.
    by rewrite Hjoin, !string_app_assoc.
Qed.

(** C8: for a format string that matches the grammar with a type code,
    [NumberFormat.validate] returns the string exactly when the code is
    one of e, f, g, r, s, %, p, b, o, d, x, X, c and the empty string;
    for any other code it raises the trait error whose message lists the
    allowed codes, each in quotes and in the order in which the
    interpreter iterates the set, and names the offending code. *)
Theorem NumberFormat_validate_type_code
    (listed_types : list string) (value : string)
    (re_match : gmap nat string) (format_type : string) :
  listed_types ≡ₚ _number_format_types ->
  Re.match_ true _number_format_re value = Some re_match ->
  re_match !! 9%nat = Some format_type ->
  (validate listed_types value = Ok value <->
     format_type ∈ _number_format_types)
  /\ (format_type ∉ _number_format_types ->
      validate listed_types value
      = Raise (TraitErrorMsg (type_error_message listed_types format_type))
      /\ type_error_message listed_types format_type
         = ("The type specifier of a NumberFormat trait must be one of ["
            ++ String.concat ", " (map (fun t => "'" ++ t ++ "'") listed_types)
            ++ "], but a value of '" ++ format_type
            ++ "' was specified.")%string
      /\ (forall t, t ∈ _number_format_types ->
            exists before after,
              type_error_message listed_types format_type
              = (before ++ "'" ++ t ++ "'" ++ after)%string)
      /\ (exists before,
            type_error_message listed_types format_type
            = (before ++ "'" ++ format_type ++ "' was specified.")%string))
  /\ (forall code, code ∈ _number_format_types <->
        code ∈ ["e"; "f"; "g"; "r"; "s"; "%"; "p"; "b"; "o"; "d"; "x"; "X";
                "c"; EmptyString]%string).
Proof.
  intros Hlisted Hmatch Hcode.
  unfold validate, Unicode_validate. simpl.
  rewrite Hmatch, Hcode.
  assert (type_error_message listed_types format_type
          = ("The type specifier of a NumberFormat trait must be one of ["
             ++ String.concat ", " (map (fun t => "'" ++ t ++ "'") listed_types)
             ++ "], but a value of '" ++ format_type
             ++ "' was specified.")%string) as Hmsg.
  { unfold type_error_message, repr_list. rewrite join_concat.
    rewrite !string_app_assoc. done. }
  destruct (bool_decide (format_type ∈ _number_format_types)) eqn:Hin;
    [apply bool_decide_eq_true in Hin | apply bool_decide_eq_false in Hin].
  - split; [done|]. split; [done|]. done.
  - split; [by split|]. split; [|done].
    intros _. split; [done|]. split; [exact Hmsg|]. split.
    + intros t Ht. rewrite <- Hlisted in Ht.
      destruct (join_contains ", " (repr_str <$> listed_types) (repr_str t))
        as (before & after & Hjoin); [by apply list_elem_of_fmap_2|].
      exists ("The type specifier of a NumberFormat trait must be one of ["
              ++ before)%string,
             (after ++ "], but a value of '" ++ format_type
              ++ "' was specified.")%string.
      unfold type_error_message, repr_list. rewrite Hjoin.
      unfold repr_str. rewrite !string_app_assoc. done.
    + exists ("The type specifier of a NumberFormat trait must be one of "
              ++ repr_list listed_types ++ ", but a value of ")%string.
      unfold type_error_message. rewrite !string_app_assoc. done.
Qed.

End NumberFormatProperties.

(** [".3f"] carries the type code [f], which is allowed; ["5E"] carries
    [E], which is not, and with the set iterated in the order of the
    source the message reads as below. *)
Lemma NumberFormat_validate_type_code_witness :
  NumberFormat.validate NumberFormat._number_format_types ".3f"
  = Ok ".3f"%string
  /\ NumberFormat.validate NumberFormat._number_format_types "5E"
     = Raise (TraitErrorMsg
         "The type specifier of a NumberFormat trait must be one of ['e', 'f', 'g', 'r', 's', '%', 'p', 'b', 'o', 'd', 'x', 'X', 'c', ''], but a value of 'E' was specified.").
Proof.
  split.
  - destruct (NumberFormat_validate_type_code
                NumberFormat._number_format_types ".3f"
                {[ 8%nat := ".3"%string; 9%nat := "f"%string ]} "f")
      as [Hiff _]; [reflexivity | vm_compute; reflexivity | reflexivity |].
    apply Hiff. unfold NumberFormat._number_format_types.
    right. left.
  - destruct (NumberFormat_validate_type_code
                NumberFormat._number_format_types "5E"
                {[ 6%nat := "5"%string; 9%nat := "E"%string ]} "E")
      as (_ & Hraise & _); [reflexivity | vm_compute; reflexivity | reflexivity |].
    destruct Hraise as (Hsend & _).
    + intros Hin.
      assert (bool_decide
                ("E"%string ∈ NumberFormat._number_format_types) = false)
        as Hno by (vm_compute; reflexivity).
      by apply bool_decide_eq_false in Hno.
    + rewrite Hsend. reflexivity.
Defined.

(** ** InstanceDict *)

Section InstanceDictProperties.
Context {object : Type}.
Context (as_dict : object -> option (gmap string object)).
Context (klass : gmap string object -> result object object).
Context (isinstance_klass : object -> bool).

Import InstanceDict.

(** C9: given a dict, [InstanceDict.validate] calls the target type with
    the entries as named arguments and validates the instance built;
    given anything else it validates the value itself; validating against
    the target type returns an instance of it and raises the trait error
    carrying the value for anything else. *)
Theorem InstanceDict_validate_cases (value : object) :
  (forall kwargs,
     as_dict value = Some kwargs ->
     validate as_dict klass isinstance_klass value
     = (instance <<- klass kwargs ;; Instance_validate isinstance_klass instance)
     /\ forall instance,
          klass kwargs = Ok instance ->
          validate as_dict klass isinstance_klass value
          = if isinstance_klass instance then Ok instance
            else Raise (TraitError instance))
  /\ (as_dict value = None ->
      validate as_dict klass isinstance_klass value
      = Instance_validate isinstance_klass value
      /\ (isinstance_klass value = true ->
          validate as_dict klass isinstance_klass value = Ok value)
      /\ (isinstance_klass value = false ->
          validate as_dict klass isinstance_klass value
          = Raise (TraitError value))).
Proof.
  unfold validate, Instance_validate. split.
  - intros kwargs ->. split; [done|]. by intros instance ->.
  - intros ->. split; [done|]. by split; intros ->.
Qed.

End InstanceDictProperties.

(** [{"a": 1}] is coerced to the instance with [a = 1]; a string is
    refused. *)
Lemma InstanceDict_validate_cases_witness :
  InstanceDict.validate sample_as_dict sample_klass sample_isinstance
    (Sample_dict {[ "a"%string := 1%Z ]})
  = Ok (Sample_target (Some 1%Z))
  /\ InstanceDict.validate sample_as_dict sample_klass sample_isinstance
       (Sample_str "a")
     = Raise (TraitError (Sample_str "a")).
Proof.
  split.
  - destruct (InstanceDict_validate_cases sample_as_dict sample_klass
                sample_isinstance (Sample_dict {[ "a"%string := 1%Z ]}))
      as [Hdict _].
    destruct (Hdict (Sample_int <$> {[ "a"%string := 1%Z ]}) eq_refl)
      as [_ Hinst].
    apply (Hinst (Sample_target (Some 1%Z))). vm_compute. reflexivity.
  - destruct (InstanceDict_validate_cases sample_as_dict sample_klass
                sample_isinstance (Sample_str "a")) as [_ Hother].
    destruct (Hother eq_refl) as (_ & _ & Hrefuse).
    apply Hrefuse. reflexivity.
Defined.

(** * Further properties *)

(** ** EventfulList: what each call does and emits *)

(** Records for the positions from [off] on, one per element of [l]. *)
Lemma omap_seq_imap {A B} (f : nat -> option B) (g : nat -> A -> B)
    (l : list A) (off : nat) :
  (forall j x, l !! j = Some x -> f (off + j) = Some (g j x)) ->
  omap f (seq off (length l)) = imap g l.
Proof.
  revert off g. induction l as [|x l IH]; intros off g Hf; csimpl; [done|].
  rewrite <- (Nat.add_0_r off) at 1. rewrite (Hf 0 x eq_refl). f_equal.
  apply IH. intros j y Hj.
  replace (S off + j) with (off + S j) by lia. by apply (Hf (S j) y).
Qed.

Section ListExtras.
Context {A : Type} `{!EqDecision A}.
Context (le : relation A) `{!forall x y, Decision (le x y)}.

Import EventfulList.

Lemma position_lt (n : nat) (i : Z) (j : nat) :
  position n i = Some j -> j < n.
Proof.
  unfold position. repeat case_decide; intros [= <-]; lia.
Qed.

(** [value[i]] is the element at the position of [i], and an
    [IndexError] when [i] has none. *)
Lemma getitem_position (l : list A) (i : Z) :
  getitem l i =
    match position (length l) i with
    | Some j =>
        match l !! j with Some x => Ok x | None => Raise IndexError end
    | None => Raise IndexError
    end.
Proof. reflexivity. Qed.

(** Closing [setitem] brackets at the positions [ps], opened on [value],
    on the list [l'] that has all these positions. *)
Lemma after_setitems_positions (value l' : list A) (ps : list nat) :
  (forall i, i ∈ ps -> i < length l') ->
  EventfulElements.after_setitems l'
    ((fun i => (Z.of_nat i, value !! i)) <$> ps)
  = Ok (omap (fun i =>
               match l' !! i with
               | Some y =>
                   if decide (Some y <> value !! i)
                   then Some (Bunch_key_old_new (Z.of_nat i) (value !! i) y)
                   else None
               | None => None
               end) ps).
Proof.
  intros Hps. unfold EventfulElements.after_setitems.
  rewrite rmapM_fmap.
  rewrite (rmapM_total _ (fun i =>
             match l' !! i with
             | Some y =>
                 if decide (Some y <> value !! i)
                 then Some (Bunch_key_old_new (Z.of_nat i) (value !! i) y)
                 else None
             | None => None
             end)).
  - simpl. by rewrite omap_id_fmap.
  - intros i Hi. unfold EventfulElements._after_setitem.
    rewrite getitem_of_nat.
    destruct (lookup_lt_is_Some_2 l' i (Hps i Hi)) as [y ->]. simpl.
    by destruct (decide (Some y <> value !! i)).
Qed.

(** [append(x)], computed. *)
Lemma send_append (l : list A) (x : A) :
  send le (Call_append x) l
  = Eventful.Returned (l ++ [x]) tt
      [Bunch_key_old_new (Z.of_nat (length l)) None x].
Proof.
  unfold send, Eventful.instrumented, reading, _before_append.
  unfold Eventful.abstracted_once, Eventful.abstracted. simpl.
  rewrite _before_setitem_of_nat. simpl.
  rewrite (lookup_ge_None_2 l (length l)) by lia.
  unfold EventfulElements.after_setitems. simpl.
  unfold EventfulElements._after_setitem. rewrite getitem_of_nat.
  rewrite list_lookup_middle by done. simpl.
  by destruct (decide (Some x <> None)).
Qed.

(** [extend(xs)] with a sequence, computed. *)
Lemma send_extend (value xs : list A) :
  send le (Call_extend xs) value
  = Eventful.Returned (value ++ xs) tt
      (imap (fun j x =>
               Bunch_key_old_new (Z.of_nat (length value + j)) None x)
         (take (length xs - length value) xs)).
Proof.
  unfold send, Eventful.instrumented, reading.
  rewrite _before_extend_brackets. simpl.
  rewrite (imap_seq_0 xs (fun i => (Z.of_nat i, value !! i))).
  rewrite after_setitems_positions.
  2:{ intros i Hi%elem_of_seq. rewrite length_app. lia. }
  f_equal.
  set (k := length value `min` length xs).
  replace (length xs) with (k + (length xs - k)) at 1 by lia.
  rewrite seq_app, omap_app. simpl.
  rewrite omap_all_None.
  2:{ intros i Hi%elem_of_seq.
      destruct (lookup_lt_is_Some_2 value i ltac:(lia)) as [y Hy].
      rewrite (lookup_app_l_Some _ _ _ _ Hy), Hy.
      by destruct (decide (Some y <> Some y)). }
  simpl.
  destruct (decide (length xs <= length value)) as [Hle|Hgt].
  - replace (length xs - k) with 0 by lia.
    by replace (length xs - length value) with 0 by lia.
  - replace k with (length value) by lia.
    rewrite <- (length_take_le xs (length xs - length value)) at 1 by lia.
    apply omap_seq_imap. intros j x Hj.
    apply lookup_take_Some in Hj as [Hx Hlt].
    rewrite lookup_app_r by lia.
    replace (length value + j - length value) with j by lia.
    rewrite Hx, (lookup_ge_None_2 value) by lia.
    by rewrite decide_True.
Qed.

(** [l[i] = x], computed. *)
Lemma send_list_setitem (l : list A) (i : Z) (x : A) :
  send le (Call_setitem i x) l
  = match position (length l) i with
    | Some j =>
        Eventful.Returned (<[j := x]> l) tt
          (if decide (Some x <> l !! j)
           then [Bunch_key_old_new i (l !! j) x] else [])
    | None => Eventful.Raised IndexError l
    end.
Proof.
  unfold send, Eventful.instrumented, reading.
  unfold EventfulElements._before_setitem. rewrite getitem_position.
  simpl. destruct (position (length l) i) as [j|] eqn:Hpos; simpl.
  - pose proof (position_lt _ _ _ Hpos) as Hj.
    destruct (lookup_lt_is_Some_2 l j Hj) as [y Hy]. rewrite Hy. simpl.
    rewrite Hpos.
    unfold EventfulElements.after_setitems. simpl.
    unfold EventfulElements._after_setitem. rewrite getitem_position.
    rewrite length_insert, Hpos, list_lookup_insert_eq by done. simpl.
    by destruct (decide (Some x <> Some y)).
  - by rewrite Hpos.
Qed.

(** [del l[i]], computed. *)
Lemma send_list_delitem (l : list A) (i : Z) :
  send le (Call_delitem i) l
  = match position (length l) i with
    | Some j =>
        match l !! j with
        | Some old => Eventful.Returned (delete j l) tt [Bunch_key_old i old]
        | None => Eventful.Raised IndexError l
        end
    | None => Eventful.Raised IndexError l
    end
  /\ (forall j, position (length l) i = Some j -> is_Some (l !! j)).
Proof.
  split.
  - unfold send, Eventful.instrumented, reading.
    unfold EventfulElements._before_delitem. rewrite getitem_position.
    destruct (position (length l) i) as [j|] eqn:Hpos; simpl; [|done].
    destruct (l !! j) as [y|] eqn:Hy; simpl; [|done].
    by rewrite Hpos.
  - intros j Hpos. apply lookup_lt_is_Some_2. by eapply position_lt.
Qed.

(** [remove(x)], computed. *)
Lemma send_remove (l : list A) (x : A) :
  send le (Call_remove x) l
  = match index l x with
    | Ok i => Eventful.Returned (delete i l) tt [Bunch_key_old (Z.of_nat i) x]
    | Raise e => Eventful.Raised e l
    end.
Proof.
  unfold send, Eventful.instrumented, reading, _before_remove.
  destruct (index l x) as [i|e] eqn:Hi; simpl; [|done].
  destruct (index_Ok l x i Hi) as [Hl _].
  unfold Eventful.abstracted_once, Eventful.abstracted. simpl.
  rewrite (_before_delitem_of_nat l i x Hl). simpl. by rewrite Hi.
Qed.

(** [append(x)] always emits exactly one record: the key is the length
    before the call, [old] is [Undefined] and [new] is [x]. *)
Theorem append_emits_one_record (l : list A) (x : A) :
  send le (Call_append x) l
  = Eventful.Returned (l ++ [x]) tt
      [Bunch_key_old_new (Z.of_nat (length l)) None x].
Proof. apply send_append. Qed.

(** [extend(xs)] with a sequence [xs] (a list or a tuple, which the hook
    and the wrapped method each go through from its start) appends [xs]
    and emits records only for the elements of [xs] past the old length
    of the list, counted from the front of [xs]: the [j]-th element of
    [xs], for [j] below [len(xs) - len(value)], is notified as new at the
    key [len(value) + j], whichever position it has in the list
    afterwards. *)
Theorem extend_emits_records_of_front (value xs : list A) :
  send le (Call_extend xs) value
  = Eventful.Returned (value ++ xs) tt
      (imap (fun j x =>
               Bunch_key_old_new (Z.of_nat (length value + j)) None x)
         (take (length xs - length value) xs)).
Proof. apply send_extend. Qed.

(** [l[i] = x]: with an index in range (from the front or, negative,
    from the end) the element is replaced and one record is emitted if the
    value changed, none if it did not, its key being the index as the
    caller wrote it; with an index out of range the call raises
    [IndexError], emits nothing and leaves the list as it was. *)
Theorem list_setitem_outcome (l : list A) (i : Z) (x : A) :
  send le (Call_setitem i x) l
  = match position (length l) i with
    | Some j =>
        Eventful.Returned (<[j := x]> l) tt
          (if decide (Some x <> l !! j)
           then [Bunch_key_old_new i (l !! j) x] else [])
    | None => Eventful.Raised IndexError l
    end.
Proof. apply send_list_setitem. Qed.

(** [del l[i]]: with an index in range the element is deleted and one
    record with the index as written and the element is emitted; with an
    index out of range the call raises [IndexError], emits nothing and
    leaves the list as it was. *)
Theorem list_delitem_outcome (l : list A) (i : Z) :
  send le (Call_delitem i) l
  = match position (length l) i with
    | Some j =>
        match l !! j with
        | Some old => Eventful.Returned (delete j l) tt [Bunch_key_old i old]
        | None => Eventful.Raised IndexError l
        end
    | None => Eventful.Raised IndexError l
    end
  /\ (forall j, position (length l) i = Some j -> is_Some (l !! j)).
Proof. apply send_list_delitem. Qed.

(** A raise of the first element of a list that [rmapM] runs over. *)
Lemma rmapM_raise {X B C} (f : B -> result X C) (g : B -> C)
    (l1 l2 : list B) (b : B) (e : exn X) :
  (forall a, a ∈ l1 -> f a = Ok (g a)) ->
  f b = Raise e ->
  rmapM f (l1 ++ b :: l2) = Raise e.
Proof.
  intros Hl1 Hb. induction l1 as [|a l1 IH]; simpl.
  - by rewrite Hb.
  - rewrite (Hl1 a) by left. simpl. rewrite IH; [done|].
    intros a' Ha'. apply Hl1. by right.
Qed.

(** [extend] with an iterator, computed: the hook has gone through the
    iterator, so that the wrapped method appends nothing; the brackets
    are re-read on the list as it was, and a bracket at a position past
    its end fails there. *)
Lemma send_extend_iterator (value xs : list A) :
  send le (Call_extend_iterator xs) value
  = if decide (length xs <= length value)
    then Eventful.Returned value tt []
    else Eventful.Raised IndexError value.
Proof.
  unfold send, Eventful.instrumented, reading.
  rewrite _before_extend_brackets. simpl. rewrite app_nil_r.
  destruct (decide (length xs <= length value)) as [Hle|Hgt].
  - rewrite after_setitems_unchanged; [done|].
    intros st (i & y & -> & Hy)%elem_of_lookup_imap.
    assert (i < length value) as Hi by (apply lookup_lt_Some in Hy; lia).
    destruct (lookup_lt_is_Some_2 value i Hi) as [x Hx].
    exists i, x. by rewrite Hx.
  - unfold EventfulElements.after_setitems.
    rewrite (imap_seq_0 xs (fun i => (Z.of_nat i, value !! i))).
    replace (length xs)
      with (length value + S (length xs - S (length value))) by lia.
    rewrite seq_app, fmap_app. simpl.
    rewrite (rmapM_raise _ (fun _ => None) _ _ _ IndexError); [done| |].
    + intros st (i & -> & Hi%elem_of_seq)%list_elem_of_fmap.
      unfold EventfulElements._after_setitem. rewrite getitem_of_nat.
      destruct (lookup_lt_is_Some_2 value i ltac:(lia)) as [y ->]. simpl.
      by destruct (decide (Some y <> Some y)).
    + unfold EventfulElements._after_setitem. rewrite getitem_of_nat.
      by rewrite (lookup_ge_None_2 value (length value)) by lia.
Qed.

(** The instrumentation is transparent for every call but [extend] with
    an iterator: the list ends as the wrapped method of [list] leaves it,
    the caller gets what the method returns, and the call raises exactly
    when the method does, with the same exception and the list as the
    method leaves it.  [extend] with an iterator is not: [list.extend]
    would append what the iterator yields, the instrumented call leaves
    the list as it was, whether it returns or raises. *)
Theorem list_call_transparent (c : call) (l : list A) :
  match c with
  | Call_extend_iterator xs =>
      original le c l = Eventful.Done (l ++ xs) tt
      /\ match send le c l with
         | Eventful.Returned l' _ _ => l' = l
         | Eventful.Raised _ l' => l' = l
         end
  | _ =>
      match send le c l with
      | Eventful.Returned l' r _ => original le c l = Eventful.Done l' r
      | Eventful.Raised e l' => original le c l = Eventful.Fail e l'
      end
  end.
Proof.
  destruct c as [x|xs|xs|i x|x|i| |].
  - by rewrite send_append.
  - by rewrite send_extend.
  - split; [done|]. rewrite send_extend_iterator.
    by destruct (decide (length xs <= length l)).
  - rewrite send_list_setitem. simpl.
    by destruct (position (length l) i).
  - rewrite send_remove. simpl. by destruct (index l x).
  - rewrite (proj1 (send_list_delitem l i)). simpl.
    destruct (position (length l) i) as [j|] eqn:Hpos; [|done].
    destruct (proj2 (send_list_delitem l i) j Hpos) as [y Hy].
    by rewrite Hy.
  - reflexivity.
  - reflexivity.
Qed.

(** [extend] with an iterator or a generator loses what it yields: the
    hook's [enumerate] has gone through the iterator when [list.extend]
    runs, so that nothing is appended.  If the iterator yields no more
    elements than the list holds, the call returns without a notification
    and the list is as it was; if it yields more, the re-reading of the
    bracket at the first position past the end of the list raises
    [IndexError], and the list is as it was too. *)
Theorem extend_iterator_appends_nothing (value xs : list A) :
  (length xs <= length value ->
   send le (Call_extend_iterator xs) value = Eventful.Returned value tt [])
  /\ (length value < length xs ->
      send le (Call_extend_iterator xs) value
      = Eventful.Raised IndexError value)
  /\ original le (Call_extend_iterator xs) value
     = Eventful.Done (value ++ xs) tt.
Proof.
  rewrite send_extend_iterator. split; [|split; [|done]]; intros Hlen.
  - by rewrite decide_True.
  - by rewrite decide_False by lia.
Qed.

(** [append(x)] followed by [del l[-1]] gives the list back; the second
    call notifies the deletion of [x] under the key [-1], the index as
    written. *)
Theorem append_then_delete_last (l : list A) (x : A) :
  send le (Call_append x) l
  = Eventful.Returned (l ++ [x]) tt
      [Bunch_key_old_new (Z.of_nat (length l)) None x]
  /\ send le (Call_delitem (-1)) (l ++ [x])
     = Eventful.Returned l tt [Bunch_key_old (-1)%Z x]
  /\ send le (Call_delitem (-1)) [] = Eventful.Raised IndexError [].
Proof.
  split; [apply send_append|]. split; [|reflexivity].
  rewrite (proj1 (send_list_delitem (l ++ [x]) (-1))).
  assert (position (length (l ++ [x])) (-1) = Some (length l)) as ->.
  { unfold position. rewrite length_app. simpl.
    destruct (decide (0 <= -1)%Z) as [?|_]; [lia|].
    destruct (decide (- Z.of_nat (length l + 1) <= -1)%Z) as [_|?]; [|lia].
    f_equal. lia. }
  rewrite list_lookup_middle by done. f_equal.
  induction l as [|y l IH]; simpl; [done|]. by rewrite IH.
Qed.

End ListExtras.

(** ** EventfulDict: what each call does and emits *)

Section DictExtras.
Context {K V : Type} `{Countable K} `{!EqDecision V}.

Import EventfulDict.

Local Abbreviation dict := (gmap K V).
Local Abbreviation heap := (gmap loc (gmap K V)).
Local Abbreviation record := (Bunch K V (gmap K V)).

(** Deleting a key the mapping does not hold: [del d[k]] and [d.pop(k)]
    raise [KeyError], emit nothing and leave the mapping as it was;
    [d.pop(k, default)] returns the default, silently.  Deleting a key it
    holds removes the entry and emits the one record with the key and the
    value removed, which [pop] also returns. *)
Theorem dict_delitem_pop_outcome (h : heap) (self : loc) (d : dict) (k : K) :
  h !! self = Some d ->
  (d !! k = None ->
     send self (Call_delitem k) h = Eventful.Raised KeyError h
     /\ send self (Call_pop k None) h = Eventful.Raised KeyError h
     /\ forall w, send self (Call_pop k (Some w)) h
                  = Eventful.Returned h (Some w) [])
  /\ (forall w, d !! k = Some w ->
     send self (Call_delitem k) h
     = Eventful.Returned (<[self := delete k d]> h) None [Bunch_key_old k w]
     /\ forall default,
          send self (Call_pop k default) h
          = Eventful.Returned (<[self := delete k d]> h) (Some w)
              [Bunch_key_old k w]).
Proof.
  intros Hd. split.
  - intros Hk. rewrite (send_delitem h self d k Hd), Hk. split; [done|].
    split; [by rewrite (send_pop h self d k None Hd), Hk|].
    intros w. by rewrite (send_pop h self d k (Some w) Hd), Hk.
  - intros w Hk. rewrite (send_delitem h self d k Hd), Hk. split; [done|].
    intros default. by rewrite (send_pop h self d k default Hd), Hk.
Qed.

(** [setdefault(k, v)] on a key the mapping holds changes nothing, emits
    nothing and returns the value held; on a missing key it stores [v],
    returns it and emits the one record with [old] the absent sentinel. *)
Theorem dict_setdefault_outcome
    (h : heap) (self : loc) (d : dict) (k : K) (v : V) :
  h !! self = Some d ->
  (forall w, d !! k = Some w ->
     send self (Call_setdefault k v) h = Eventful.Returned h (Some w) [])
  /\ (d !! k = None ->
     send self (Call_setdefault k v) h
     = Eventful.Returned (<[self := <[k := v]> d]> h) (Some v)
         [Bunch_key_old_new k None v]).
Proof.
  intros Hd. split.
  - intros w Hk. by rewrite (send_setdefault h self d k v Hd), Hk.
  - intros Hk. by rewrite (send_setdefault h self d k v Hd), Hk.
Qed.

(** [clear()] empties the mapping and emits one deletion record for each
    entry it held, with the entry's key and value, and no other; an empty
    mapping is cleared silently. *)
Theorem dict_clear_outcome (h : heap) (self : loc) (d : dict) :
  h !! self = Some d ->
  exists evs,
    send self Call_clear h = Eventful.Returned (<[self := ∅]> h) None evs
    /\ length evs = size d
    /\ NoDup (omap Bunch_key evs)
    /\ (forall e, e ∈ evs <->
          exists k v, d !! k = Some v /\ e = Bunch_key_old k v)
    /\ (d = ∅ -> evs = []).
Proof.
  intros Hd. exists (delitem_record <$> map_to_list d).
  split; [by apply send_clear|].
  split; [by rewrite length_fmap, length_map_to_list|].
  split.
  { rewrite <- omap_Some_fmap.
    apply (NoDup_omap_keys _ fst); [by intros kv r [= <-]|].
    apply NoDup_fst_map_to_list. }
  split.
  { intros e. rewrite list_elem_of_fmap. split.
    - intros ([k v] & -> & Hkv%elem_of_map_to_list). by exists k, v.
    - intros (k & v & Hkv & ->). exists (k, v).
      split; [done|]. by apply elem_of_map_to_list. }
  intros ->. by rewrite map_to_list_empty.
Qed.

(** The mapping passed to its own [update], with named arguments: the
    hook's [new.update(call.kwargs)] is then the instrumented [update] of
    the container itself, called with the named arguments alone, and it
    notifies as that call does; the hook's own brackets open on the
    merged mapping and add no record.  The call therefore leaves the
    mapping and emits the records that [update] with the named arguments
    alone leaves and emits: one for each named argument whose value the
    mapping did not hold. *)
Theorem dict_update_with_itself_notifies_once
    (h : heap) (self : loc) (d kw : dict) :
  h !! self = Some d ->
  send self (Call_update [self] kw) h
  = Eventful.Returned (<[self := kw ∪ d]> h) None
      (omap (setitem_record d) (map_to_list kw))
  /\ send self (Call_update [self] kw) h = send self (Call_update [] kw) h
  /\ (forall k v, kw !! k = Some v -> d !! k <> Some v ->
        exists evs,
          send self (Call_update [self] kw) h
          = Eventful.Returned (<[self := kw ∪ d]> h) None evs
          /\ Bunch_key_old_new k (d !! k) v ∈ evs).
Proof.
  intros Hd.
  assert (send self (Call_update [self] kw) h
          = Eventful.Returned (<[self := kw ∪ d]> h) None
              (omap (setitem_record d) (map_to_list kw))) as Hsend.
  { rewrite (send_update_positional h self self d d (kw ∪ d) kw Hd Hd)
      by (by rewrite lookup_insert_eq).
    rewrite decide_True by done.
    rewrite (omap_all_None (setitem_record (kw ∪ d))).
    2:{ intros [k v] Hkv%elem_of_map_to_list. by apply setitem_record_same. }
    rewrite app_nil_r, insert_insert_eq, update_with_merged.
    do 2 f_equal. unfold update_with. apply map_eq. intros k.
    rewrite !lookup_union. by destruct (kw !! k), (d !! k). }
  split; [exact Hsend|].
  split; [by rewrite Hsend, (send_update_named h self d kw Hd)|].
  intros k v Hk Hv. eexists. split; [exact Hsend|].
  apply elem_of_setitem_records. by exists k, v.
Qed.

(** [update] with two or more positional arguments fails with the
    [TypeError] of [dict.update] and the records of the hook's brackets
    are never emitted, but the hook has run: the first argument holds the
    named arguments merged into it and, where that argument is the
    container itself, the merge was the container's own [update] and has
    notified of the named arguments. *)
Theorem dict_update_too_many_arguments
    (h : heap) (self a b : loc) (rest : list loc) (d pos kw : dict) :
  h !! self = Some d -> h !! a = Some pos ->
  send self (Call_update (a :: b :: rest) kw) h
  = Eventful.Raised TypeError (<[a := kw ∪ pos]> h)
  /\ inner_update_events self (a :: b :: rest) kw h
     = if decide (a = self) then omap (setitem_record d) (map_to_list kw)
       else [].
Proof.
  intros Hd Ha.
  split; [|by apply inner_update_events_positional].
  assert (exists d1, <[a := kw ∪ pos]> h !! self = Some d1) as [d1 Hd1].
  { destruct (decide (a = self)) as [->|Hne].
    - exists (kw ∪ pos). by rewrite lookup_insert_eq.
    - exists d. by rewrite lookup_insert_ne. }
  unfold send, update_call, Eventful.instrumented.
  rewrite (_before_update_positional h self a (b :: rest) pos d1 kw Ha Hd1).
  unfold original. by rewrite Hd1.
Qed.

(** The instrumentation is transparent for the mapping: a call that
    returns leaves the container holding what the wrapped method of
    [dict] leaves in it and returns what the method returns. *)
Theorem dict_call_transparent
    (h : heap) (self : loc) (d : dict) (c : call)
    (h' : heap) (r : option V) (evs : list record) :
  h !! self = Some d ->
  send self c h = Eventful.Returned h' r evs ->
  exists h0, original self c h = Eventful.Done h0 r
             /\ h' !! self = h0 !! self.
Proof.
  intros Hd. destruct c as [k v|k v|k|k default|args kw|].
  - rewrite (send_setitem h self d k v Hd). intros [= <- <- <-].
    eexists. unfold original. rewrite Hd. done.
  - rewrite (send_setdefault h self d k v Hd). unfold original. rewrite Hd.
    destruct (d !! k) as [w|]; intros [= <- <- <-]; by eexists.
  - rewrite (send_delitem h self d k Hd). unfold original. rewrite Hd.
    destruct (d !! k) as [w|]; [|discriminate].
    intros [= <- <- <-]. by eexists.
  - rewrite (send_pop h self d k default Hd). unfold original. rewrite Hd.
    destruct (d !! k) as [w|]; [|destruct default as [w|]; [|discriminate]];
      intros [= <- <- <-]; by eexists.
  - destruct args as [|a [|b rest]].
    + rewrite (send_update_named h self d kw Hd). intros [= <- <- <-].
      eexists. unfold original. rewrite Hd. done.
    + destruct (h !! a) as [pos|] eqn:Ha.
      * assert (exists d1, <[a := kw ∪ pos]> h !! self = Some d1
                  /\ (a <> self -> d1 = d) /\ (a = self -> d1 = kw ∪ pos /\ pos = d))
          as (d1 & Hd1 & Hne & Heq).
        { destruct (decide (a = self)) as [->|Hne].
          - exists (kw ∪ pos). rewrite lookup_insert_eq.
            split; [done|]. split; [done|]. intros _. split; [done|]. congruence.
          - exists d. by rewrite lookup_insert_ne. }
        rewrite (send_update_positional h self a pos d d1 kw Hd Ha Hd1).
        intros [= <- <- <-]. unfold original. rewrite Hd, Ha.
        eexists. split; [done|]. rewrite !lookup_insert_eq. f_equal.
        unfold update_with. apply map_eq. intros k.
        destruct (decide (a = self)) as [Has|Has].
        -- destruct (Heq Has) as [-> ->].
           rewrite !lookup_union.
           destruct (kw !! k), (d !! k); done.
        -- rewrite (Hne Has). rewrite !lookup_union.
           destruct (kw !! k), (pos !! k), (d !! k); done.
      * unfold send, update_call, Eventful.instrumented, _before_update, deref.
        rewrite Ha. discriminate.
    + unfold send, update_call, Eventful.instrumented.
      destruct (_before_update self (a :: b :: rest) kw h) as [[h1 st]|];
        [|discriminate].
      unfold original. destruct (h1 !! self); discriminate.
  - rewrite (send_clear h self d Hd). intros [= <- <- <-].
    eexists. unfold original. rewrite Hd. done.
Qed.

End DictExtras.

(** A mapping with [a] and without [b]. *)
Lemma dict_delitem_pop_outcome_witness :
  EventfulDict.send 1%positive (EventfulDict.Call_delitem "b"%string) sample_heap
  = Eventful.Raised KeyError sample_heap
  /\ EventfulDict.send 1%positive (EventfulDict.Call_pop "a"%string None)
       sample_heap
     = Eventful.Returned
         (<[1%positive := delete "a"%string {[ "a"%string := 1%Z ]}]> sample_heap)
         (Some 1%Z) [Bunch_key_old "a"%string 1%Z].
Proof.
  assert (sample_heap !! 1%positive = Some {[ "a"%string := 1%Z ]}) as Hd
    by reflexivity.
  split.
  - apply (proj1 (dict_delitem_pop_outcome sample_heap 1%positive
                    {[ "a"%string := 1%Z ]} "b"%string Hd)). reflexivity.
  - destruct (dict_delitem_pop_outcome sample_heap 1%positive
                {[ "a"%string := 1%Z ]} "a"%string Hd) as [_ Hheld].
    apply (Hheld 1%Z). reflexivity.
Defined.

Lemma dict_setdefault_outcome_witness :
  EventfulDict.send 1%positive (EventfulDict.Call_setdefault "a"%string 7%Z)
    sample_heap
  = Eventful.Returned sample_heap (Some 1%Z) []
  /\ EventfulDict.send 1%positive (EventfulDict.Call_setdefault "b"%string 7%Z)
       sample_heap
     = Eventful.Returned
         (<[1%positive := <["b"%string := 7%Z]> {[ "a"%string := 1%Z ]}]>
            sample_heap)
         (Some 7%Z) [Bunch_key_old_new "b"%string None 7%Z].
Proof.
  assert (sample_heap !! 1%positive = Some {[ "a"%string := 1%Z ]}) as Hd
    by reflexivity.
  split.
  - apply (proj1 (dict_setdefault_outcome sample_heap 1%positive
                    {[ "a"%string := 1%Z ]} "a"%string 7%Z Hd) 1%Z).
    reflexivity.
  - apply (proj2 (dict_setdefault_outcome sample_heap 1%positive
                    {[ "a"%string := 1%Z ]} "b"%string 7%Z Hd)).
    reflexivity.
Defined.

Lemma dict_clear_outcome_witness :
  exists evs,
    EventfulDict.send 1%positive EventfulDict.Call_clear sample_heap
    = Eventful.Returned (<[1%positive := ∅]> sample_heap) None evs
    /\ length evs = 1.
Proof.
  destruct (dict_clear_outcome sample_heap 1%positive {[ "a"%string := 1%Z ]})
    as (evs & Hsend & Hlen & _); [reflexivity|].
  exists evs. split; [exact Hsend|]. rewrite Hlen. reflexivity.
Defined.

(** [d.update(d, b=2)] on [{"a": 1}] adds [b] and notifies of it. *)
Lemma dict_update_with_itself_notifies_once_witness :
  EventfulDict.send 1%positive
    (EventfulDict.Call_update [1%positive] {[ "b"%string := 2%Z ]}) sample_heap
  = Eventful.Returned
      (<[1%positive := {[ "b"%string := 2%Z ]} ∪ {[ "a"%string := 1%Z ]}]>
         sample_heap) None
      [Bunch_key_old_new "b"%string None 2%Z].
Proof.
  rewrite (proj1 (dict_update_with_itself_notifies_once sample_heap 1%positive
                    {[ "a"%string := 1%Z ]} {[ "b"%string := 2%Z ]} eq_refl)).
  reflexivity.
Defined.

Lemma dict_update_too_many_arguments_witness :
  EventfulDict.send 1%positive
    (EventfulDict.Call_update [2%positive; 3%positive] {[ "c"%string := 3%Z ]})
    sample_heap
  = Eventful.Raised TypeError
      (<[2%positive := {[ "c"%string := 3%Z ]} ∪ {[ "a"%string := 1%Z ]}]>
         sample_heap).
Proof.
  apply (proj1 (dict_update_too_many_arguments sample_heap 1%positive
                  2%positive 3%positive [] {[ "a"%string := 1%Z ]}
                  {[ "a"%string := 1%Z ]} {[ "c"%string := 3%Z ]}
                  eq_refl eq_refl)).
Defined.

Lemma dict_call_transparent_witness :
  exists h0,
    EventfulDict.original 1%positive
      (EventfulDict.Call_setitem "b"%string 2%Z) sample_heap
    = Eventful.Done h0 None.
Proof.
  destruct (dict_call_transparent sample_heap 1%positive
              {[ "a"%string := 1%Z ]}
              (EventfulDict.Call_setitem "b"%string 2%Z) _ _ _
              eq_refl
              (send_setitem sample_heap 1%positive {[ "a"%string := 1%Z ]}
                 "b"%string 2%Z eq_refl)) as (h0 & Horig & _).
  by exists h0.
Defined.

(** ** The date/time wire codec: decoding *)

Section DatetimeExtras.
Import Datetime.
Local Open Scope Z_scope.

(** What a successful decoding says about the wire form: its seven
    entries are ints, and the value is built from them. *)
Lemma datetime_from_json_Some_inv (js : gmap string number) (d : datetime) :
  datetime_from_json (Some js) = Ok (Some d) ->
  exists y mo dd h mi s ms,
    js !! "year"%string = Some (Int y)
    /\ js !! "month"%string = Some (Int mo)
    /\ js !! "date"%string = Some (Int dd)
    /\ js !! "hours"%string = Some (Int h)
    /\ js !! "minutes"%string = Some (Int mi)
    /\ js !! "seconds"%string = Some (Int s)
    /\ js !! "milliseconds"%string = Some (Int ms)
    /\ fields_ok y (mo + 1) dd h mi s (ms * 1000) = true
    /\ d = mk_datetime y (mo + 1) dd h mi s (ms * 1000) None.
Proof.
  unfold datetime_from_json, item.
  destruct (js !! "year"%string) as [ny|]; simpl; [|discriminate].
  destruct (js !! "month"%string) as [nmo|]; simpl; [|discriminate].
  destruct (js !! "date"%string) as [ndd|]; simpl; [|discriminate].
  destruct (js !! "hours"%string) as [nh|]; simpl; [|discriminate].
  destruct (js !! "minutes"%string) as [nmi|]; simpl; [|discriminate].
  destruct (js !! "seconds"%string) as [ns|]; simpl; [|discriminate].
  destruct (js !! "milliseconds"%string) as [nms|]; simpl; [|discriminate].
  unfold dt_datetime.
  destruct ny as [y|]; simpl; [|discriminate].
  destruct nmo as [mo|]; simpl; [|discriminate].
  destruct ndd as [dd|]; simpl; [|discriminate].
  destruct nh as [h|]; simpl; [|discriminate].
  destruct nmi as [mi|]; simpl; [|discriminate].
  destruct ns as [s|]; simpl; [|discriminate].
  destruct nms as [ms|]; simpl; [|discriminate].
  destruct (fields_ok y (mo + 1) dd h mi s (ms * 1000)) eqn:Hok; simpl;
    [|discriminate].
  intros [= <-]. by exists y, mo, dd, h, mi, s, ms.
Qed.

(** Whatever [datetime_from_json] returns for a wire object is a valid
    naive datetime with whole milliseconds; it returns [None] for [None]
    only. *)
Theorem datetime_from_json_result
    (js : option (gmap string number)) (r : option datetime) :
  datetime_from_json js = Ok r ->
  (r = None <-> js = None)
  /\ (forall d, r = Some d ->
        valid d = true /\ tzinfo d = None /\ microsecond d mod 1000 = 0).
Proof.
  destruct js as [js|].
  - intros Hjs. destruct r as [d|].
    + split; [done|]. intros d' [= <-].
      destruct (datetime_from_json_Some_inv js d Hjs)
        as (y & mo & dd & h & mi & s & ms & _ & _ & _ & _ & _ & _ & _ & Hok & ->).
      split; [exact Hok|]. split; [done|]. simpl. apply Z.mod_mul. done.
    + exfalso. revert Hjs. unfold datetime_from_json.
      repeat (match goal with
              | |- context [rbind ?m _] => destruct m; simpl; [|discriminate]
              end).
      discriminate.
  - simpl. intros [= <-]. done.
Qed.

(** Wire to value to wire: a wire object with the seven keys and no
    other that decodes to a value is, under floor division, the encoding
    of that value. *)
Theorem datetime_to_json_from_json
    (js : gmap string number) (d : datetime) :
  datetime_from_json (Some js) = Ok (Some d) ->
  dom js = wire_keys ->
  datetime_to_json FloorDivision (Some d) = Some js.
Proof.
  intros Hjs Hdom.
  destruct (datetime_from_json_Some_inv js d Hjs)
    as (y & mo & dd & h & mi & s & ms
        & Hy & Hmo & Hdd & Hh & Hmi & Hs & Hms & _ & ->).
  unfold datetime_to_json. f_equal. simpl.
  replace (mo + 1 - 1) with mo by lia.
  replace (ms * 1000 / 1000) with ms by (by rewrite Z.div_mul).
  apply map_eq. intros k.
  destruct (decide (k = "year"%string)) as [->|Hk1];
    [by rewrite Hy; vm_compute|].
  destruct (decide (k = "month"%string)) as [->|Hk2];
    [by rewrite Hmo; vm_compute|].
  destruct (decide (k = "date"%string)) as [->|Hk3];
    [by rewrite Hdd; vm_compute|].
  destruct (decide (k = "hours"%string)) as [->|Hk4];
    [by rewrite Hh; vm_compute|].
  destruct (decide (k = "minutes"%string)) as [->|Hk5];
    [by rewrite Hmi; vm_compute|].
  destruct (decide (k = "seconds"%string)) as [->|Hk6];
    [by rewrite Hs; vm_compute|].
  destruct (decide (k = "milliseconds"%string)) as [->|Hk7];
    [by rewrite Hms; vm_compute|].
  rewrite !lookup_insert_ne, lookup_empty by done.
  symmetry. apply not_elem_of_dom. rewrite Hdom. unfold wire_keys.
  rewrite !not_elem_of_union, !not_elem_of_singleton. done.
Qed.

(** A wire object that lacks one of the seven keys is refused with
    [KeyError], whatever its other entries. *)
Theorem datetime_from_json_missing_key
    (js : gmap string number) (key : string) :
  key ∈ wire_keys -> js !! key = None ->
  datetime_from_json (Some js) = Raise KeyError.
Proof.
  intros Hkey Hnone. unfold datetime_from_json, item.
  assert (key = "year" \/ key = "month" \/ key = "date" \/ key = "hours"
          \/ key = "minutes" \/ key = "seconds" \/ key = "milliseconds")%string
    as Hcases.
  { unfold wire_keys in Hkey.
    rewrite !elem_of_union, !elem_of_singleton in Hkey. tauto. }
  destruct (js !! "year"%string) eqn:H1; simpl;
    [|done].
  destruct (js !! "month"%string) eqn:H2; simpl; [|done].
  destruct (js !! "date"%string) eqn:H3; simpl; [|done].
  destruct (js !! "hours"%string) eqn:H4; simpl; [|done].
  destruct (js !! "minutes"%string) eqn:H5; simpl; [|done].
  destruct (js !! "seconds"%string) eqn:H6; simpl; [|done].
  destruct (js !! "milliseconds"%string) eqn:H7; simpl; [|done].
  exfalso.
  destruct Hcases as [->|[->|[->|[->|[->|[->| ->]]]]]]; congruence.
Qed.

(** The encoding of a valid value has the seven keys and no other; its
    month is the month counted from 0, between 0 and 11, and under floor
    division its milliseconds are an int between 0 and 999. *)
Theorem datetime_to_json_fields (mode : division) (d : datetime) :
  valid d = true ->
  exists js,
    datetime_to_json mode (Some d) = Some js
    /\ dom js = wire_keys
    /\ js !! "year"%string = Some (Int (year d))
    /\ js !! "month"%string = Some (Int (month d - 1))
    /\ 0 <= month d - 1 <= 11
    /\ js !! "date"%string = Some (Int (day d))
    /\ (mode = FloorDivision ->
        js !! "milliseconds"%string = Some (Int (microsecond d / 1000))
        /\ 0 <= microsecond d / 1000 <= 999).
Proof.
  intros Hv. eexists. split; [reflexivity|].
  split.
  { rewrite dom_list_to_map_L. unfold wire_keys. simpl.
    by rewrite (right_id_L ∅ (∪)), !(assoc_L (∪)). }
  split; [vm_compute; reflexivity|].
  split; [vm_compute; reflexivity|].
  unfold valid, fields_ok in Hv.
  rewrite !andb_true_iff, !in_range_spec in Hv.
  destruct Hv as ((((((Hy & Hmo) & Hd) & Hh) & Hmi) & Hs) & Hus).
  split; [lia|]. split; [vm_compute; reflexivity|].
  intros ->. split; [vm_compute; reflexivity|].
  split; [apply Z.div_pos; lia|].
  assert (microsecond d / 1000 < 1000) by (apply Z.div_lt_upper_bound; lia).
  lia.
Qed.

End DatetimeExtras.

(** The wire form of 2000-01-02 03:04:05.002 as a browser sends it. *)
Lemma datetime_to_json_from_json_witness :
  exists js : gmap string Datetime.number,
    Datetime.datetime_from_json (Some js) = Ok (Some sample_datetime_ms)
    /\ Datetime.datetime_to_json Datetime.FloorDivision
         (Some sample_datetime_ms) = Some js.
Proof.
  exists (list_to_map
            [("year", Datetime.Int 2000); ("month", Datetime.Int 0);
             ("date", Datetime.Int 2); ("hours", Datetime.Int 3);
             ("minutes", Datetime.Int 4); ("seconds", Datetime.Int 5);
             ("milliseconds", Datetime.Int 2)]%string).
  assert (Datetime.datetime_from_json
            (Some (list_to_map
               [("year", Datetime.Int 2000); ("month", Datetime.Int 0);
                ("date", Datetime.Int 2); ("hours", Datetime.Int 3);
                ("minutes", Datetime.Int 4); ("seconds", Datetime.Int 5);
                ("milliseconds", Datetime.Int 2)]%string))
          = Ok (Some sample_datetime_ms)) as Hdecode
    by (vm_compute; reflexivity).
  split; [exact Hdecode|].
  apply (datetime_to_json_from_json _ _ Hdecode).
  rewrite dom_list_to_map_L. unfold wire_keys. simpl.
  by rewrite (right_id_L ∅ (∪)), !(assoc_L (∪)).
Defined.

Lemma datetime_from_json_result_witness :
  Datetime.valid sample_datetime_ms = true
  /\ (Datetime.microsecond sample_datetime_ms mod 1000 = 0)%Z.
Proof.
  destruct (datetime_from_json_result
              (Datetime.datetime_to_json Datetime.FloorDivision
                 (Some sample_datetime_ms))
              (Some sample_datetime_ms)) as [_ Hvalid];
    [vm_compute; reflexivity|].
  destruct (Hvalid sample_datetime_ms eq_refl) as (Hv & _ & Hms).
  split; [exact Hv | exact Hms].
Defined.

(** The empty object lacks [year]. *)
Lemma datetime_from_json_missing_key_witness :
  Datetime.datetime_from_json (Some ∅) = Raise KeyError.
Proof.
  apply (datetime_from_json_missing_key ∅ "year"%string).
  - unfold wire_keys. rewrite !elem_of_union, !elem_of_singleton. tauto.
  - reflexivity.
Defined.

Lemma datetime_to_json_fields_witness :
  exists js,
    Datetime.datetime_to_json Datetime.FloorDivision (Some sample_datetime_us)
    = Some js
    /\ js !! "milliseconds"%string = Some (Datetime.Int 1%Z).
Proof.
  destruct (datetime_to_json_fields Datetime.FloorDivision sample_datetime_us)
    as (js & Hjs & _ & _ & _ & _ & _ & Hms); [reflexivity|].
  exists js. split; [exact Hjs|]. apply Hms. reflexivity.
Defined.

(** ** Color: the strings accepted *)

Section ColorExtras.
Import Color.

(** Runs through the 256 characters. *)
Ltac each_char c := destruct c as [[] [] [] [] [] [] [] []].

Lemma char_lower_idemp (c : ascii) :
  Re.char_lower (Re.char_lower c) = Re.char_lower c.
Proof. each_char c; reflexivity. Qed.

Lemma is_hex_char_lower (c : ascii) :
  is_hex c = true -> is_hex (Re.char_lower c) = true.
Proof. each_char c; vm_compute; done. Qed.

Lemma hash_char_lower (c : ascii) :
  bool_decide (Re.char_lower c = "#"%char) = bool_decide (c = "#"%char).
Proof. each_char c; reflexivity. Qed.

Lemma newline_char_lower (c : ascii) :
  bool_decide (Re.char_lower c = Re.newline) = bool_decide (c = Re.newline).
Proof. each_char c; reflexivity. Qed.

Lemma lower_idemp (s : string) : Re.lower (Re.lower s) = Re.lower s.
Proof.
  induction s as [|c s IH]; simpl; [done|]. by rewrite char_lower_idemp, IH.
Qed.

Lemma at_end_lower (s : string) : Re.at_end (Re.lower s) = Re.at_end s.
Proof.
  destruct s as [|c [|c' s]]; simpl; [done| |done]. apply newline_char_lower.
Qed.

Lemma hex_shape_lower (s : string) :
  hex_shape s = true -> hex_shape (Re.lower s) = true.
Proof.
  destruct s as [|c0 [|c1 [|c2 [|c3 rest]]]]; simpl; try discriminate.
  rewrite !andb_true_iff, !orb_true_iff, hash_char_lower.
  intros ((((H0 & H1) & H2) & H3) & Htail).
  repeat split; try done; try (by apply is_hex_char_lower).
  destruct Htail as [Hsix|Hthree].
  - left. destruct rest as [|c4 [|c5 [|c6 rest']]]; simpl; try discriminate.
    simpl in Hsix. rewrite !andb_true_iff in *.
    destruct Hsix as (((H4 & H5) & H6) & Hend).
    rewrite at_end_lower. repeat split; try done; by apply is_hex_char_lower.
  - right. by rewrite at_end_lower.
Qed.

(** [validate] in terms of the shape. *)
Lemma validate_shape (s : string) :
  validate s = Ok s <-> Re.lower s ∈ _color_names \/ hex_shape s = true.
Proof.
  rewrite <- _color_re_shape. unfold validate.
  destruct (bool_decide (Re.lower s ∈ _color_names)) eqn:Hname;
    [apply bool_decide_eq_true in Hname | apply bool_decide_eq_false in Hname].
  - simpl. split; [by left|done].
  - simpl.
    destruct (bool_decide (is_Some (Re.match_ false _color_re s))) eqn:Hre;
      [apply bool_decide_eq_true in Hre | apply bool_decide_eq_false in Hre].
    + split; [by right|done].
    + split; [discriminate|]. by intros [?|?].
Qed.

Lemma validate_refused (s : string) :
  validate s <> Ok s -> validate s = Raise (TraitError s).
Proof.
  unfold validate. by destruct (_ || _).
Qed.

(** The shape, by the characters after the [#]. *)
Lemma hex_shape_digits (s : string) :
  hex_shape s = true <->
  exists cs : list ascii,
    Forall (fun c => is_hex c = true) cs
    /\ (length cs = 3 \/ length cs = 6)
    /\ (s = String "#" (string_of cs)
        \/ s = String "#" (string_of cs ++ String Re.newline EmptyString)).
Proof.
  assert (forall r, Re.at_end r = true <->
            r = EmptyString \/ r = String Re.newline EmptyString) as Hend.
  { intros [|c [|c' r]]; simpl.
    - split; [by left|done].
    - rewrite bool_decide_eq_true. split; [intros ->; by right|].
      intros [?|[= ->]]; done.
    - split; [done|]. intros [?|?]; discriminate. }
  split.
  - destruct s as [|c0 [|c1 [|c2 [|c3 rest]]]]; simpl; try discriminate.
    rewrite !andb_true_iff, orb_true_iff, bool_decide_eq_true.
    intros ((((-> & H1) & H2) & H3) & Htail).
    destruct Htail as [Hsix|Hthree].
    + destruct rest as [|c4 [|c5 [|c6 rest']]]; try discriminate.
      rewrite !andb_true_iff in Hsix. destruct Hsix as (((H4 & H5) & H6) & He).
      exists [c1; c2; c3; c4; c5; c6].
      split; [by repeat constructor|]. split; [by right|].
      apply Hend in He as [->| ->]; [by left|by right].
    + exists [c1; c2; c3]. split; [by repeat constructor|]. split; [by left|].
      apply Hend in Hthree as [->| ->]; [by left|by right].
  - intros (cs & Hhex & Hlen & Hs).
    destruct Hlen as [Hlen|Hlen].
    + destruct cs as [|c1 [|c2 [|c3 [|]]]]; try discriminate.
      apply Forall_cons in Hhex as [H1 Hhex].
      apply Forall_cons in Hhex as [H2 Hhex].
      apply Forall_cons in Hhex as [H3 _].
      destruct Hs as [->| ->]; simpl; rewrite H1, H2, H3; done.
    + destruct cs as [|c1 [|c2 [|c3 [|c4 [|c5 [|c6 [|]]]]]]]; try discriminate.
      apply Forall_cons in Hhex as [H1 Hhex].
      apply Forall_cons in Hhex as [H2 Hhex].
      apply Forall_cons in Hhex as [H3 Hhex].
      apply Forall_cons in Hhex as [H4 Hhex].
      apply Forall_cons in Hhex as [H5 Hhex].
      apply Forall_cons in Hhex as [H6 _].
      destruct Hs as [->| ->]; simpl; rewrite H1, H2, H3, H4, H5, H6; done.
Qed.

(** [Color.validate] returns a string exactly when its lower-case form is
    one of the names or it is a [#] followed by three or six hexadecimal
    digits and then nothing or one newline; every other string raises the
    trait error. *)
Theorem Color_validate_accepted_strings (s : string) :
  (validate s = Ok s <->
     Re.lower s ∈ _color_names
     \/ exists cs : list ascii,
          Forall (fun c => is_hex c = true) cs
          /\ (length cs = 3 \/ length cs = 6)
          /\ (s = String "#" (string_of cs)
              \/ s = String "#" (string_of cs ++ String Re.newline EmptyString)))
  /\ (validate s <> Ok s -> validate s = Raise (TraitError s)).
Proof.
  split; [|apply validate_refused].
  by rewrite validate_shape, hex_shape_digits.
Qed.

(** The color names [indianred] and [indigo] are refused in every
    capitalization: the list holds them with a space at the end. *)
Theorem Color_validate_refuses_indianred_indigo (s : string) :
  Re.lower s = "indianred"%string \/ Re.lower s = "indigo"%string ->
  validate s = Raise (TraitError s)
  /\ validate (s ++ " ") = Ok (s ++ " ")%string.
Proof.
  intros Hs.
  assert (forall t u, Re.lower (t ++ u) = (Re.lower t ++ Re.lower u)%string)
    as Happ.
  { intros t u. induction t as [|c t IH]; simpl; [done|]. by rewrite IH. }
  split.
  - apply validate_refused. rewrite validate_shape. intros [Hname|Hshape].
    + assert (bool_decide ("indianred"%string ∈ _color_names) = false)
        as H1 by (vm_compute; reflexivity).
      assert (bool_decide ("indigo"%string ∈ _color_names) = false)
        as H2 by (vm_compute; reflexivity).
      apply bool_decide_eq_false in H1, H2.
      destruct Hs as [Hs|Hs]; rewrite Hs in Hname; done.
    + destruct s as [|c0 s']; [discriminate|].
      assert (Re.char_lower c0 = "i"%char) as Hc0
        by (destruct Hs as [Hs|Hs]; simpl in Hs; by injection Hs).
      destruct s' as [|c1 [|c2 [|c3 rest]]]; try discriminate.
      simpl in Hshape. rewrite !andb_true_iff, bool_decide_eq_true in Hshape.
      destruct Hshape as ((((-> & _) & _) & _) & _). discriminate.
  - apply validate_shape. left. rewrite Happ.
    destruct Hs as [-> | ->]; apply (bool_decide_unpack _); vm_compute;
      exact I.
Qed.

(** Acceptance does not depend on the case of the letters: a string that
    [Color.validate] returns is also returned in lower case. *)
Theorem Color_validate_lower (s : string) :
  validate s = Ok s -> validate (Re.lower s) = Ok (Re.lower s).
Proof.
  rewrite !validate_shape, lower_idemp.
  intros [Hname|Hshape]; [by left|]. right. by apply hex_shape_lower.
Qed.

End ColorExtras.

Lemma Color_validate_accepted_strings_witness :
  Color.validate "#a0B1c2" = Ok "#a0B1c2"%string
  /\ Color.validate "#a0B1c" = Raise (TraitError "#a0B1c"%string).
Proof.
  split.
  - apply (proj1 (Color_validate_accepted_strings "#a0B1c2")). right.
    exists ["a"; "0"; "B"; "1"; "c"; "2"]%char.
    split; [by repeat constructor|]. split; [by right|]. by left.
  - apply (proj2 (Color_validate_accepted_strings "#a0B1c")).
    vm_compute. discriminate.
Defined.

Lemma Color_validate_refuses_indianred_indigo_witness :
  Color.validate "IndianRed" = Raise (TraitError "IndianRed"%string)
  /\ Color.validate "IndianRed " = Ok "IndianRed "%string.
Proof.
  apply (Color_validate_refuses_indianred_indigo "IndianRed").
  left. reflexivity.
Defined.

Lemma Color_validate_lower_witness :
  Color.validate (Re.lower "#A80") = Ok (Re.lower "#A80").
Proof.
  apply (Color_validate_lower "#A80"). vm_compute. reflexivity.
Defined.

(** ** NumberFormat: the type code *)

Section NumberFormatExtras.
Import NumberFormat.

(** One character of the subject is the text between a position and the
    next. *)
Lemma consumed_one (c : ascii) (s : string) :
  Re.consumed (String c s) s = String c EmptyString.
Proof.
  unfold Re.consumed. simpl String.length.
  replace (S (String.length s) - String.length s) with 1 by lia.
  simpl. by destruct s.
Qed.

(** A match leaves in a group that is one character set one character
    of that set. *)
Lemma exec_group_is_class (ignorecase : bool) (n0 : nat) (p : ascii -> bool)
    (whole : nat) (r : Re.regex) :
  group_is_class ignorecase n0 p r ->
  forall (s : string) (g m : gmap nat string)
         (k : string -> gmap nat string -> option (gmap nat string)),
    (forall x, g !! n0 = Some x ->
       exists c, x = String c EmptyString /\ p c = true) ->
    (forall s' g' m',
       (forall x, g' !! n0 = Some x ->
          exists c, x = String c EmptyString /\ p c = true) ->
       k s' g' = Some m' ->
       forall x, m' !! n0 = Some x ->
         exists c, x = String c EmptyString /\ p c = true) ->
    Re.exec ignorecase r whole s g k = Some m ->
    forall x, m !! n0 = Some x ->
      exists c, x = String c EmptyString /\ p c = true.
Proof.
  induction r as [|items| |r1 IH1 r2 IH2|r1 IH1|items|n r1 IH1| |];
    intros Hr s g m k Hg Hk; simpl.
  - by apply Hk.
  - destruct s as [|c s]; [discriminate|].
    destruct (Re.in_class ignorecase items c); [by apply Hk|discriminate].
  - destruct s as [|c s]; [discriminate|].
    destruct (bool_decide (c = Re.newline)); [discriminate|by apply Hk].
  - destruct Hr as [Hr1 Hr2]. apply (IH1 Hr1 s g m _ Hg).
    intros s' g' m' Hg'. by apply (IH2 Hr2).
  - destruct (Re.exec ignorecase r1 whole s g k) as [m1|] eqn:Hexec.
    + intros [= <-]. by apply (IH1 Hr s g m1 k Hg Hk).
    + by apply Hk.
  - clear Hr. induction s as [|c s IHs]; simpl; [discriminate|].
    destruct (Re.in_class ignorecase items c); [|discriminate].
    destruct (Re.many1 _ s _) as [m1|] eqn:Hmany.
    + intros [= <-]. by apply IHs.
    + by apply Hk.
  - destruct Hr as [Hn Hr1]. destruct (decide (n = n0)) as [->|Hne].
    + destruct (Hn eq_refl) as (items & -> & Hp). simpl.
      destruct s as [|c s]; [discriminate|].
      destruct (Re.in_class ignorecase items c) eqn:Hc; [|discriminate].
      apply Hk. intros x. rewrite lookup_insert_eq, consumed_one.
      intros [= <-]. exists c. split; [done|]. by apply Hp.
    + apply (IH1 Hr1 s g m _ Hg). intros s' g' m' Hg'.
      apply Hk. intros x. rewrite lookup_insert_ne by done. apply Hg'.
  - destruct (String.length s =? whole)%nat; [by apply Hk|discriminate].
  - destruct (Re.at_end s); [by apply Hk|discriminate].
Qed.

Lemma type_code_class (c : ascii) :
  Re.in_class true [Re.Range "a" "z"; Re.Lit "%"] c = true ->
  is_letter_or_percent c = true.
Proof. destruct c as [[] [] [] [] [] [] [] []]; vm_compute; done. Qed.

Lemma _number_format_re_group_9 :
  group_is_class true 9 is_letter_or_percent _number_format_re.
Proof.
  unfold _number_format_re. simpl.
  repeat split; try discriminate.
  intros _. eexists. split; [reflexivity|]. apply type_code_class.
Qed.

(** The type code the grammar finds is always exactly one character, a
    letter of either case or the percent sign: the empty string of
    [_number_format_types] is never the code, and a string is returned
    with a type code only if the code is one of the thirteen
    one-character members. *)
Theorem NumberFormat_type_code_is_one_character
    (listed_types : list string) (value : string)
    (re_match : gmap nat string) (format_type : string) :
  Re.match_ true _number_format_re value = Some re_match ->
  re_match !! 9%nat = Some format_type ->
  (exists c, format_type = String c EmptyString
             /\ is_letter_or_percent c = true)
  /\ format_type <> EmptyString
  /\ (validate listed_types value = Ok value ->
      format_type ∈ ["e"; "f"; "g"; "r"; "s"; "%"; "p"; "b"; "o"; "d"; "x";
                     "X"; "c"]%string).
Proof.
  intros Hmatch Hcode.
  assert (exists c, format_type = String c EmptyString
                    /\ is_letter_or_percent c = true) as Hone.
  { unfold Re.match_ in Hmatch.
    refine (exec_group_is_class true 9 is_letter_or_percent _ _
              _number_format_re_group_9 value ∅ re_match _ _ _ Hmatch
              format_type Hcode).
    - intros x Hx. by rewrite lookup_empty in Hx.
    - intros s' g' m' Hg' [= <-]. exact Hg'. }
  split; [exact Hone|].
  destruct Hone as (c & -> & Hc). split; [discriminate|].
  unfold validate, Unicode_validate. simpl. rewrite Hmatch, Hcode.
  destruct (bool_decide (String c EmptyString ∈ _number_format_types)) eqn:Hin;
    [|discriminate].
  intros _. apply bool_decide_eq_true in Hin.
  unfold _number_format_types in Hin.
  rewrite !elem_of_cons in Hin. rewrite !elem_of_cons.
  destruct Hin as [?|[?|[?|[?|[?|[?|[?|[?|[?|[?|[?|[?|[?|[?|Hnil]]]]]]]]]]]]]];
    first [tauto | discriminate | by apply elem_of_nil in Hnil].
Qed.

End NumberFormatExtras.

(** ["+.2E"] has the type code [E]. *)
Lemma NumberFormat_type_code_is_one_character_witness :
  exists c, "E"%string = String c EmptyString
            /\ is_letter_or_percent c = true.
Proof.
  apply (NumberFormat_type_code_is_one_character
           NumberFormat._number_format_types "+.2E"
           {[ 3%nat := "+"%string; 8%nat := ".2"%string; 9%nat := "E"%string ]}
           "E"); [vm_compute; reflexivity | reflexivity].
Defined.

(** ** InstanceDict: what validation returns *)

Section InstanceDictExtras.
Context {object : Type}.
Context (as_dict : object -> option (gmap string object)).
Context (klass : gmap string object -> result object object).
Context (isinstance_klass : object -> bool).

Import InstanceDict.

(** Whatever [InstanceDict.validate] returns is an instance of the target
    type; a value that is no dict is returned as it is; and validating the
    result again returns it again unless it is itself a dict.  When it
    raises for a value that is no dict, it raises the trait error carrying
    that value. *)
Theorem InstanceDict_validate_result (value w : object) :
  validate as_dict klass isinstance_klass value = Ok w ->
  isinstance_klass w = true
  /\ (as_dict value = None -> w = value)
  /\ (forall kwargs, as_dict value = Some kwargs -> klass kwargs = Ok w)
  /\ (as_dict w = None -> validate as_dict klass isinstance_klass w = Ok w).
Proof.
  unfold validate, Instance_validate.
  destruct (as_dict value) as [kwargs|] eqn:Hdict.
  - destruct (klass kwargs) as [instance|e] eqn:Hk; simpl; [|discriminate].
    destruct (isinstance_klass instance) eqn:Hinst; [|discriminate].
    intros [= <-]. split; [done|]. split; [discriminate|].
    split; [by intros ? [= <-]|]. intros ->. by rewrite Hinst.
  - destruct (isinstance_klass value) eqn:Hinst; [|discriminate].
    intros [= <-]. split; [done|]. split; [done|].
    split; [discriminate|]. intros _. by rewrite Hdict, Hinst.
Qed.

End InstanceDictExtras.

(** The instance built from [{"a": 1}] validates to itself. *)
Lemma InstanceDict_validate_result_witness :
  InstanceDict.validate sample_as_dict sample_klass sample_isinstance
    (Sample_target (Some 1%Z))
  = Ok (Sample_target (Some 1%Z)).
Proof.
  destruct (InstanceDict_validate_result sample_as_dict sample_klass
              sample_isinstance (Sample_dict {[ "a"%string := 1%Z ]})
              (Sample_target (Some 1%Z)))
    as (_ & _ & _ & Hagain); [vm_compute; reflexivity|].
  apply Hagain. reflexivity.
Defined.
